(** * Abstract vectorisation notebook: corpus loading, normaliser,
      similarity matrix, compaction, cluster sample

    A shallow embedding of the code cells of
    [abstract_tfidf_vectorization.ipynb].  The notebook's own code is
    embedded as functions; what it calls in NLTK, scikit-learn, NumPy and
    pandas is either a section variable (tokenisers, stemmer, stopword
    table, float32 rounding) or a small executable model of the documented
    behaviour of the call ([nlargest], the affinity selection of
    [SpectralEmbedding]).

    Text is modelled as [string] over 8-bit characters; only the ASCII
    letters are cased, as for Python text restricted to ASCII.  Similarity
    scores are exact rationals [Q]. *)

From Stdlib Require Import List String Ascii Bool Arith ZArith QArith Lia.
From Stdlib Require Import Permutation Sorted Lqa.
Import ListNotations.

Set Warnings "-notation-for-abbreviation".

Local Close Scope Q_scope.
Local Open Scope nat_scope.
Local Open Scope list_scope.

(** ** Python string primitives used by the notebook *)

Module PyStr.

Definition is_ascii_upper (c : ascii) : bool :=
  let n := nat_of_ascii c in ((65 <=? n) && (n <=? 90))%nat.

Definition is_ascii_lower (c : ascii) : bool :=
  let n := nat_of_ascii c in ((97 <=? n) && (n <=? 122))%nat.

Definition lower_char (c : ascii) : ascii :=
  if is_ascii_upper c then ascii_of_nat (nat_of_ascii c + 32) else c.

(** [str.lower()] *)
Fixpoint lower (s : string) : string :=
  match s with
  | EmptyString => EmptyString
  | String c s' => String (lower_char c) (lower s')
  end.

Fixpoint any_char (p : ascii -> bool) (s : string) : bool :=
  match s with
  | EmptyString => false
  | String c s' => p c || any_char p s'
  end.

(** [str.isupper()]: at least one cased character, and no cased character
    that is lower-case. *)
Definition isupper (s : string) : bool :=
  any_char is_ascii_upper s && negb (any_char is_ascii_lower s).

(** [len(s)] *)
Definition len (s : string) : nat := String.length s.

(** [w in s] for two strings: [w] occurs in [s] as a contiguous substring. *)
Fixpoint str_in (w s : string) : bool :=
  prefix w s
  || match s with
     | EmptyString => false
     | String _ s' => str_in w s'
     end.

(** [string.punctuation]: the 32 ASCII punctuation characters in code-point
    order, [!] to [/], [:] to [@], [[] to [`], [{] to [~]. *)
Definition punctuation : string :=
  string_of_list_ascii
    (map ascii_of_nat (seq 33 15 ++ seq 58 7 ++ seq 91 6 ++ seq 123 4)).

(** [x in l] for a list of strings. *)
Definition list_in (x : string) (l : list string) : bool :=
  existsb (String.eqb x) l.

(** [enumerate(l)] *)
Fixpoint enumerate_from {A : Type} (n : nat) (l : list A) : list (nat * A) :=
  match l with
  | [] => []
  | x :: l' => (n, x) :: enumerate_from (S n) l'
  end.

Definition enumerate {A : Type} (l : list A) : list (nat * A) :=
  enumerate_from 0 l.

(** ASCII white space, the characters [str.isspace] accepts below 128 apart
    from the four separator controls. *)
Definition is_space (c : ascii) : bool :=
  let n := nat_of_ascii c in ((n =? 32) || ((9 <=? n) && (n <=? 13)))%nat.

(** The text is empty or holds white space only. *)
Fixpoint is_blank (s : string) : bool :=
  match s with
  | EmptyString => true
  | String c s' => is_space c && is_blank s'
  end.

(** A token made of punctuation characters only (and at least one). *)
Definition is_punct_char (c : ascii) : bool :=
  str_in (String c EmptyString) punctuation.

Fixpoint all_char (p : ascii -> bool) (s : string) : bool :=
  match s with
  | EmptyString => true
  | String c s' => p c && all_char p s'
  end.

Definition punctuation_only (w : string) : bool :=
  negb (String.eqb w EmptyString) && all_char is_punct_char w.

End PyStr.

(** ** Text normaliser *)

Module Normalizer.
Import PyStr.

Section Tokenizers.

(** NLTK's [sent_tokenize] and [word_tokenize], the Snowball stemmer's
    [stem], and the merged stopword list [all_stopwords]. *)
Variable sent_tokenize : string -> list string.
Variable word_tokenize : string -> list string.
Variable stem : string -> string.
Variable all_stopwords : list string.

(** The element expression of the comprehension in
    [tokenize_and_lowercase]:
    [word if (word.isupper() or i > 0) and len(word) > 1 else word.lower()]. *)
Definition fold_case (iw : nat * string) : string :=
  let (i, word) := iw in
  if ((isupper word || (0 <? i)) && (1 <? len word))%nat then word
  else lower word.

(** The comprehension's filter, [if word not in punctuation]. *)
Definition not_in_punctuation (word : string) : bool :=
  negb (str_in word punctuation).

(** The inner loop over one sentence. *)
Definition sentence_tokens (sent : string) : list string :=
  map fold_case
    (filter (fun iw => not_in_punctuation (snd iw))
       (enumerate (word_tokenize sent))).

Definition tokenize_and_lowercase (doc_str : string) : list string :=
  flat_map sentence_tokens (sent_tokenize doc_str).

Definition all_preprocess (doc_str : string) : list string :=
  map stem
    (filter (fun word => negb (list_in word all_stopwords))
       (tokenize_and_lowercase doc_str)).

(** The tokens that survive both filters, before stemming. *)
Definition kept_tokens (doc_str : string) : list string :=
  filter (fun word => negb (list_in word all_stopwords))
    (tokenize_and_lowercase doc_str).

(** Position in the output of the token read at index [i] of sentence [k]:
    the tokens kept from the earlier sentences, then those kept before [i]. *)
Definition out_index (doc_str : string) (k i : nat) : nat :=
  List.length
    (flat_map (fun s => filter not_in_punctuation (word_tokenize s))
       (firstn k (sent_tokenize doc_str)))
  + List.length
      (filter not_in_punctuation
         (firstn i (word_tokenize (nth k (sent_tokenize doc_str) EmptyString)))).

End Tokenizers.

End Normalizer.

(** ** The stemmer *)

Module Snowball.

Section Stem.

(** The rules of the English Snowball algorithm, which read the word
    already lower-cased. *)
Variable rules : string -> string.

(** [stemmer.stem(word)] for [stemmer = SnowballStemmer('english')]: the
    word is lower-cased, then the rules are applied. *)
Definition stem (word : string) : string := rules (PyStr.lower word).

End Stem.

End Snowball.

(** ** Similarity matrix *)

Module Similarity.

Local Open Scope Q_scope.

(** A two-dimensional array: its shape and its entries.  Only the entries
    inside the shape are meaningful. *)
Record Matrix : Type := mkMatrix {
  nrows : nat;
  ncols : nat;
  entry : nat -> nat -> Q
}.

(** [sum(f(k) for k in range(n))] *)
Fixpoint sumQ (f : nat -> Q) (n : nat) : Q :=
  match n with
  | O => 0
  | S n' => sumQ f n' + f n'
  end.

(** [m.transpose()] *)
Definition transpose (m : Matrix) : Matrix :=
  {| nrows := ncols m; ncols := nrows m; entry := fun i j => entry m j i |}.

(** [np.dot(a, b)]: the matrix product; the shapes must agree.  Products
    and sums are exact here, where NumPy rounds each of them. *)
Definition dot (a b : Matrix) : option Matrix :=
  if (ncols a =? nrows b)%nat then
    Some {| nrows := nrows a;
            ncols := ncols b;
            entry := fun i j => sumQ (fun k => entry a i k * entry b k j) (ncols a) |}
  else None.

(** [m.astype(t)]: every entry converted by [t]. *)
Definition astype (t : Q -> Q) (m : Matrix) : Matrix :=
  {| nrows := nrows m; ncols := ncols m; entry := fun i j => t (entry m i j) |}.

(** [m.toarray()]: the dense array with the same entries. *)
Definition toarray (m : Matrix) : Matrix := m.

Section Gram.

(** Rounding to [np.float32]. *)
Variable float32 : Q -> Q.

(** [np.dot(doc_matrix, doc_matrix.transpose()).astype(np.float32).toarray()] *)
Definition cosine_sims (doc_matrix : Matrix) : option Matrix :=
  match dot doc_matrix (transpose doc_matrix) with
  | Some g => Some (toarray (astype float32 g))
  | None => None
  end.

End Gram.

Definition row_is_zero (m : Matrix) (i : nat) : Prop :=
  forall k, (k < ncols m)%nat -> entry m i k == 0.

Definition nonnegative (m : Matrix) : Prop :=
  forall i k, (i < nrows m)%nat -> (k < ncols m)%nat -> 0 <= entry m i k.

(** What is asked of the rounding: monotone, compatible with equality of
    rationals, and exact on 0 and 1. *)
Definition exact_on_0_1_monotone (t : Q -> Q) : Prop :=
  (forall x y, x == y -> t x == t y)
  /\ (forall x y, x <= y -> t x <= t y)
  /\ t 0 == 0 /\ t 1 == 1.

End Similarity.

(** ** Similarity compaction *)

Module Compactor.
Import Similarity.

Local Open Scope Q_scope.

(** A pandas Series of scores: (label, value) pairs in positional order. *)
Definition Series : Type := list (Z * Q).

(** A data frame of scores. *)
Record DataFrame : Type := mkDataFrame {
  index : list Z;
  columns : list Z;
  values : Matrix
}.

(** [pd.DataFrame(data, index = ..., columns = ...)]: the labels must fit
    the shape of the data. *)
Definition DataFrame_of (data : Matrix) (idx cols : list Z) : option DataFrame :=
  if ((List.length idx =? nrows data) && (List.length cols =? ncols data))%nat
  then Some {| index := idx; columns := cols; values := data |}
  else None.

(** Row [i] as a Series labelled by the columns. *)
Definition row_series (df : DataFrame) (i : nat) : Series :=
  combine (columns df) (map (entry (values df) i) (seq 0 (ncols (values df)))).

(** [df.iterrows()] *)
Definition iterrows (df : DataFrame) : list (Z * Series) :=
  combine (index df) (map (row_series df) (seq 0 (nrows (values df)))).

(** Stable insertion in descending order of value: among equal values the
    inserted pair goes first. *)
Fixpoint insert_desc (x : Z * Q) (l : Series) : Series :=
  match l with
  | [] => [x]
  | y :: l' => if Qle_bool (snd y) (snd x) then x :: l else y :: insert_desc x l'
  end.

Definition sort_values_desc (s : Series) : Series :=
  fold_right insert_desc [] s.

(** [s.nlargest(n)] with the default [keep = 'first']: the first [n] of the
    values in descending order, ties in order of appearance.  Nothing
    proved below depends on how ties are ordered. *)
Definition nlargest (n : nat) (s : Series) : Series :=
  firstn n (sort_values_desc s).

(** [s.items()] *)
Definition items (s : Series) : list (Z * Q) := s.

(** A Python dict as its items in insertion order. *)
Fixpoint dict_set {V : Type} (k : Z) (v : V) (d : list (Z * V)) : list (Z * V) :=
  match d with
  | [] => [(k, v)]
  | (k', v') :: d' =>
      if (k =? k')%Z then (k, v) :: d' else (k', v') :: dict_set k v d'
  end.

(** [{k : v for k, v in kvs}] *)
Definition dict_of_items {V : Type} (kvs : list (Z * V)) : list (Z * V) :=
  fold_left (fun d kv => dict_set (fst kv) (snd kv) d) kvs [].

(** [d.get(k)] *)
Fixpoint dict_get {V : Type} (k : Z) (d : list (Z * V)) : option V :=
  match d with
  | [] => None
  | (k', v) :: d' => if (k =? k')%Z then Some v else dict_get k d'
  end.

(** The notebook's [similarities_dict]. *)
Definition similarities_dict (sims_df : DataFrame) : list (Z * list (Z * Q)) :=
  dict_of_items
    (map (fun row : Z * Series =>
            let (from_idx, sim_series) := row in
            (from_idx, dict_of_items (items (nlargest 100 sim_series))))
       (iterrows sims_df)).

(** Scores in non-increasing order. *)
Definition scores_descending (l : list (Z * Q)) : Prop :=
  StronglySorted (fun a b => snd b <= snd a) l.

End Compactor.

(** ** Spectral embedding: the graph that is decomposed *)

Module Spectral.
Import Similarity.

Local Open Scope Q_scope.

(** The [affinity] argument of [sklearn.manifold.SpectralEmbedding]. *)
Inductive Affinity : Type :=
| nearest_neighbors
| rbf
| precomputed.

Record SpectralEmbedding : Type := mkSpectralEmbedding {
  n_components : nat;
  affinity : Affinity;
  n_neighbors : nat;
  n_jobs : Z
}.

Section AffinityMatrix.

(** The library's graph builders for the modes that derive a graph from
    feature rows: the [n]-nearest-neighbour connectivity graph and the RBF
    kernel. *)
Variable kneighbors_graph : nat -> Matrix -> Matrix.
Variable rbf_kernel : Matrix -> Matrix.

(** [0.5 * (m + m.T)] *)
Definition symmetrize (m : Matrix) : Matrix :=
  {| nrows := nrows m; ncols := ncols m;
     entry := fun i j => (1 # 2) * (entry m i j + entry m j i) |}.

(** The affinity matrix the estimator decomposes.  With
    [affinity = "precomputed"] the input is taken as the affinity matrix
    itself; [n_neighbors] is read by the nearest-neighbour mode only. *)
Definition affinity_matrix (est : SpectralEmbedding) (X : Matrix) : Matrix :=
  match affinity est with
  | precomputed => X
  | nearest_neighbors => symmetrize (kneighbors_graph (n_neighbors est) X)
  | rbf => rbf_kernel X
  end.

(** The estimator as the notebook configures it. *)
Definition notebook_estimator : SpectralEmbedding :=
  {| n_components := 10; affinity := precomputed; n_neighbors := 100;
     n_jobs := (-1)%Z |}.

(** The graph behind the notebook's [spectral_embedding]. *)
Definition spectral_embedding_graph (cosine_sims : Matrix) : Matrix :=
  affinity_matrix notebook_estimator cosine_sims.

End AffinityMatrix.

(** Documents joined to [i] by an edge of non-zero weight, [i] itself apart. *)
Definition neighbours (g : Matrix) (i : nat) : list nat :=
  filter (fun j => negb (j =? i)%nat && negb (Qeq_bool (entry g i j) 0))
    (seq 0 (ncols g)).

(** The nearest-neighbour graph as the specification words it, for
    comparison with the graph above. *)

(** How many documents other than [i] are strictly more similar to [i]
    than [j] is. *)
Definition more_similar_count (sims : Matrix) (i j : nat) : nat :=
  let s := entry sims i j in
  List.length
    (filter (fun k => negb (k =? i)%nat && negb (Qle_bool (entry sims i k) s))
       (seq 0 (ncols sims))).

(** [j] can be among the [n] documents most similar to [i], however ties
    are broken, only if fewer than [n] other documents are strictly more
    similar to [i]. *)
Definition can_select (n : nat) (sims : Matrix) (i j : nat) : bool :=
  negb (j =? i)%nat && (more_similar_count sims i j <? n)%nat.

(** An edge of the symmetrised graph: one endpoint selected the other. *)
Definition knn_edge (n : nat) (sims : Matrix) (i j : nat) : bool :=
  can_select n sims i j || can_select n sims j i.

End Spectral.

(** ** Recorded inputs

    Texts with the sentences and word tokens NLTK yields for them, used to
    run the definitions. *)

Module Examples.
Import PyStr Normalizer Similarity Compactor Spectral.

Local Open Scope string_scope.

(** A tokeniser given by a table: the tokens recorded for a text, and no
    token for any other text. *)
Fixpoint lookup_tokens (tbl : list (string * list string)) (s : string)
  : list string :=
  match tbl with
  | [] => []
  | (k, v) :: tbl' => if String.eqb s k then v else lookup_tokens tbl' s
  end.

Definition acronym_doc : string :=
  "BRCA1 is an important gene. This BRCA1 test.".

Definition stopword_doc : string :=
  "The virus spreads. Then The Important virus.".

Definition ellipsis_doc : string :=
  "Wait ... what -- then.".

Definition recorded_sentences : list (string * list string) :=
  [ (acronym_doc, ["BRCA1 is an important gene."; "This BRCA1 test."]);
    (stopword_doc, ["The virus spreads."; "Then The Important virus."]);
    (ellipsis_doc, ["Wait ... what -- then."]) ].

Definition recorded_words : list (string * list string) :=
  [ ("BRCA1 is an important gene.",
       ["BRCA1"; "is"; "an"; "important"; "gene"; "."]);
    ("This BRCA1 test.", ["This"; "BRCA1"; "test"; "."]);
    ("The virus spreads.", ["The"; "virus"; "spreads"; "."]);
    ("Then The Important virus.", ["Then"; "The"; "Important"; "virus"; "."]);
    ("Wait ... what -- then.", ["Wait"; "..."; "what"; "--"; "then"; "."]) ].

Definition recorded_sent_tokenize : string -> list string :=
  lookup_tokens recorded_sentences.

Definition recorded_word_tokenize : string -> list string :=
  lookup_tokens recorded_words.

(** A few entries of the stopword list, all lower-case as in NLTK's. *)
Definition some_stopwords : list string := ["the"; "then"; "is"; "an"].

Local Open Scope Q_scope.

(** The array with the given rows. *)
Definition matrix_of_rows (rows : list (list Q)) (width : nat) : Matrix :=
  {| nrows := List.length rows;
     ncols := width;
     entry := fun i k => nth k (nth i rows []) 0 |}.

(** No rounding. *)
Definition no_rounding (q : Q) : Q := q.

(** The similarity matrix of two documents, ids 10 and 20. *)
Definition two_sims : Matrix :=
  matrix_of_rows [[1; 1 # 2]; [1 # 2; 1]] 2.

Definition two_ids : list Z := [10%Z; 20%Z].

(** Unit vectors of 202 documents on two topics, 101 documents each.
    Every document uses term 0 (weight 1/3), the term of its topic (term 1
    or 2, weight 2/3) and one of the four subtopic terms of its topic
    (terms 3 to 6, or 7 to 10, weight 2/3).  Two documents of one topic have
    similarity 5/9 or 1, two documents of different topics 1/9. *)
Definition two_topic_docs : Matrix :=
  {| nrows := 202;
     ncols := 11;
     entry := fun i k =>
                let topic := if (i <? 101)%nat then 0%nat else 1%nat in
                if (k =? 0)%nat then 1 # 3
                else if (k =? 1 + topic)%nat then 2 # 3
                else if (k =? 3 + 4 * topic + i mod 4)%nat then 2 # 3
                else 0 |}.

End Examples.

(** ** Corpus loading and stopword list *)

Module Corpus.
Import PyStr.

(** The columns of [metadata.csv] the notebook reads; a missing value
    (NaN) is [None]. *)
Record Article : Type := mkArticle {
  abstract : option string;
  title : option string;
  authors : option string;
  has_full_text : option bool;
  publish_time : option string
}.

(** A data frame of articles: (index label, row) in positional order. *)
Definition Frame : Type := list (Z * Article).

(** [s.split(' ')]: the pieces between single spaces; never empty. *)
Fixpoint split_space (s : string) : list string :=
  match s with
  | EmptyString => [EmptyString]
  | String c s' =>
      if Ascii.eqb c " "%char then EmptyString :: split_space s'
      else match split_space s' with
           | [] => [String c EmptyString]
           | p :: ps => String c p :: ps
           end
  end.

(** [' '.join(pieces)] *)
Fixpoint join_space (pieces : list string) : string :=
  match pieces with
  | [] => EmptyString
  | [p] => p
  | p :: ps => (p ++ String " "%char (join_space ps))%string
  end.

Fixpoint count_spaces (s : string) : nat :=
  match s with
  | EmptyString => 0
  | String c s' => (if Ascii.eqb c " "%char then 1 else 0) + count_spaces s'
  end.

(** [data['abstract'].str.split(' ').str.len()] for one row. *)
Definition abstract_len (row : Article) : option nat :=
  match abstract row with
  | Some s => Some (List.length (split_space s))
  | None => None
  end.

(** [data[(data.abstract_len > 50)]]; a missing length compares false. *)
Definition long_abstracts (data : Frame) : Frame :=
  filter (fun r => match abstract_len (snd r) with
                   | Some n => 50 <? n
                   | None => false
                   end) data.

Definition present {A : Type} (v : option A) : bool :=
  match v with Some _ => true | None => false end.

(** [data.dropna(subset = ['abstract', 'title', 'has_full_text',
    'publish_time', 'authors'])] *)
Definition dropna_subset (data : Frame) : Frame :=
  filter (fun r => present (abstract (snd r)) && present (title (snd r))
                   && present (has_full_text (snd r))
                   && present (publish_time (snd r))
                   && present (authors (snd r))) data.

(** The rows kept for the similarity matrix: the [dropna] above, then the
    mask [interesting_articles[interesting_articles.has_full_text]]. *)
Definition interesting_articles (data : Frame) : Frame :=
  filter (fun r => match has_full_text (snd r) with
                   | Some b => b
                   | None => false
                   end) (dropna_subset data).

(** White space as [str.strip] sees it among the ASCII characters. *)
Definition is_whitespace (c : ascii) : bool :=
  let n := nat_of_ascii c in
  (n =? 32) || ((9 <=? n) && (n <=? 13)) || ((28 <=? n) && (n <=? 31)).

Fixpoint lstrip (s : string) : string :=
  match s with
  | EmptyString => EmptyString
  | String c s' => if is_whitespace c then lstrip s' else s
  end.

Fixpoint rstrip (s : string) : string :=
  match s with
  | EmptyString => EmptyString
  | String c s' =>
      match rstrip s' with
      | EmptyString => if is_whitespace c then EmptyString else String c EmptyString
      | t => String c t
      end
  end.

(** [line.strip()] *)
Definition strip (s : string) : string := rstrip (lstrip s).

(** The string starts, or ends, with white space. *)
Definition starts_with_space (s : string) : bool :=
  match s with
  | EmptyString => false
  | String c _ => is_whitespace c
  end.

Fixpoint ends_with_space (s : string) : bool :=
  match s with
  | EmptyString => false
  | String c EmptyString => is_whitespace c
  | String _ s' => ends_with_space s'
  end.

(** [[line.strip() for line in f.readlines()]] *)
Definition bio_stopwords (lines : list string) : list string :=
  map strip lines.

(** [list(set(english).union(set(bio_stopwords)))], in one of the orders
    the set may be listed in. *)
Definition all_stopwords (english lines : list string) : list string :=
  nodup string_dec (english ++ bio_stopwords lines).

(** A listing of the same set: any order, any repetition. *)
Definition same_words (l l' : list string) : Prop :=
  forall w, In w l <-> In w l'.

End Corpus.

(** ** From the selected articles to the similarity map and the labels *)

Module Notebook.
Import Similarity Compactor Corpus.

Local Open Scope Q_scope.

(** One row of a matrix, as stored in a data frame cell. *)
Definition RowVector : Type := nat -> Q.

(** [pd.DataFrame(doc_models, index = data.index, columns =
    ['tf_idf_model'])]: row [p] of [doc_models] under the label of row [p]
    of [data]; the numbers of rows must agree. *)
Definition doc_models_df (data : Frame) (doc_models : Matrix)
  : option (list (Z * RowVector)) :=
  if (List.length data =? nrows doc_models)%nat
  then Some (combine (map fst data)
               (map (entry doc_models) (seq 0 (nrows doc_models))))
  else None.

(** [left.join(right, how = 'left')] on the index: every row of [left] with
    each row of [right] under the same label, or with a missing value when
    there is none. *)
Definition join_left {R : Type} (left : Frame) (right : list (Z * R))
  : list ((Z * Article) * option R) :=
  flat_map (fun r =>
              match filter (fun m => (fst m =? fst r)%Z) right with
              | [] => [(r, None)]
              | ms => map (fun m => (r, Some (snd m))) ms
              end) left.

(** [left.join(right, how = 'inner')] on the index, in the order of [left]. *)
Definition join_inner {R : Type} (left : Frame) (right : list (Z * R))
  : list ((Z * Article) * R) :=
  flat_map (fun r =>
              map (fun m => (r, snd m))
                (filter (fun m => (fst m =? fst r)%Z) right)) left.

(** [sparse.vstack(rows)]: needs one row at least, and no missing value. *)
Definition vstack (width : nat) (rows : list (option RowVector)) : option Matrix :=
  match rows with
  | [] => None
  | _ =>
      if forallb present rows
      then Some {| nrows := List.length rows;
                   ncols := width;
                   entry := fun i k => match nth i rows None with
                                       | Some v => v k
                                       | None => 0
                                       end |}
      else None
  end.

(** [interesting_articles.join(doc_models_df, how = 'left')]: the frame
    that [interesting_articles] names from there on. *)
Definition joined_articles (data : Frame) (doc_models : Matrix)
  : option (list ((Z * Article) * option RowVector)) :=
  match doc_models_df data doc_models with
  | Some df => Some (join_left (interesting_articles data) df)
  | None => None
  end.

(** The index of the joined frame. *)
Definition joined_index {R : Type} (joined : list ((Z * Article) * R)) : list Z :=
  map (fun x => fst (fst x)) joined.

(** The notebook's [doc_matrix]: the vectors of the interesting articles,
    fetched by label. *)
Definition doc_matrix (data : Frame) (doc_models : Matrix) : option Matrix :=
  match joined_articles data doc_models with
  | Some joined => vstack (ncols doc_models) (map snd joined)
  | None => None
  end.

Section Pipeline.

Variable float32 : Q -> Q.

(** The notebook's [sims_df]. *)
Definition sims_df (data : Frame) (doc_models : Matrix) : option DataFrame :=
  match joined_articles data doc_models, doc_matrix data doc_models with
  | Some joined, Some m =>
      match cosine_sims float32 m with
      | Some sims =>
          DataFrame_of sims (joined_index joined) (joined_index joined)
      | None => None
      end
  | _, _ => None
  end.

(** The similarity map that is written to [similarities.json]. *)
Definition similarity_map (data : Frame) (doc_models : Matrix)
  : option (list (Z * list (Z * Q))) :=
  match sims_df data doc_models with
  | Some df => Some (similarities_dict df)
  | None => None
  end.

End Pipeline.

(** [pd.Series(data = labels, index = idx)]: one label per index entry. *)
Definition labels_series (labels : list Z) (idx : list Z) : option (list (Z * Z)) :=
  if (List.length labels =? List.length idx)%nat
  then Some (combine idx labels)
  else None.

(** The labelled frame that is written to [metadata_plus_analysis.csv]:
    [data.join(labels, how = 'inner')] with [labels] indexed like the
    joined frame of interesting articles. *)
Definition labelled_articles (data : Frame) (doc_models : Matrix)
  (labels : list Z) : option (list ((Z * Article) * Z)) :=
  match joined_articles data doc_models with
  | Some joined =>
      match labels_series labels (joined_index joined) with
      | Some s => Some (join_inner data s)
      | None => None
      end
  | None => None
  end.

End Notebook.

(** ** Titles kept for naming the clusters *)

Module Clusters.

Local Open Scope Q_scope.

(** The columns of the labelled frame that the cluster analysis reads;
    every row has a label and a pagerank. *)
Record Paper : Type := mkPaper {
  label : Z;
  pagerank : Q;
  title : string
}.

(** [a] is placed no later than [b] by
    [sort_values(['label', 'pagerank'], ascending = False)]: a larger
    label first, and within a label a larger or equal pagerank first. *)
Definition goes_before (a b : Paper) : bool :=
  (label b <? label a)%Z
  || ((label a =? label b)%Z && Qle_bool (pagerank b) (pagerank a)).

Fixpoint insert_paper (x : Paper) (l : list Paper) : list Paper :=
  match l with
  | [] => [x]
  | y :: l' => if goes_before x y then x :: l else y :: insert_paper x l'
  end.

(** The sort, stable: rows that compare equal keep their order. *)
Definition sort_values (data : list Paper) : list Paper :=
  fold_right insert_paper [] data.

(** How many rows of [l] carry the label [c]. *)
Definition count_label (c : Z) (l : list Paper) : nat :=
  List.length (filter (fun r => (label r =? c)%Z) l).

(** [groupby('label').head(n)]: a row is kept when fewer than [n] rows of
    its label stand before it; [before] holds the rows already passed. *)
Fixpoint head_from (n : nat) (before rows : list Paper) : list Paper :=
  match rows with
  | [] => []
  | r :: rs =>
      (if (count_label (label r) before <? n)%nat then [r] else [])
      ++ head_from n (before ++ [r]) rs
  end.

Definition groupby_head (n : nat) (rows : list Paper) : list Paper :=
  head_from n [] rows.

(** The rows written to [cluster_analysis.csv], before the projection on
    the label and title columns. *)
Definition cluster_sample (data : list Paper) : list Paper :=
  groupby_head 50 (sort_values data).

(** [...[['label', 'title']]] *)
Definition cluster_analysis (data : list Paper) : list (Z * string) :=
  map (fun r => (label r, title r)) (cluster_sample data).

(** The order of the sorted frame. *)
Definition ranked_before (a b : Paper) : Prop :=
  (label b < label a)%Z \/ (label a = label b /\ pagerank b <= pagerank a).

End Clusters.

(** ** Further recorded inputs *)

Module Fixtures.
Import PyStr Normalizer Similarity Compactor Corpus Notebook Examples.

Local Open Scope string_scope.

Definition newline : string := String (ascii_of_nat 10) EmptyString.

(** A text without capitals, its sentence and its word tokens. *)
Definition plain_doc : string := "the virus spreads (fast).".

Definition plain_sent_tokenize : string -> list string :=
  lookup_tokens [ (plain_doc, [plain_doc]) ].

Definition plain_word_tokenize : string -> list string :=
  lookup_tokens
    [ (plain_doc, ["the"; "virus"; "spreads"; "("; "fast"; ")"; "."]) ].

(** A text with one capitalised word at the head of a sentence and inside
    another, its sentences and their word tokens. *)
Definition capital_doc : string :=
  "Important genes mutate. Then Important genes.".

Definition capital_sent_tokenize : string -> list string :=
  lookup_tokens
    [ (capital_doc, ["Important genes mutate."; "Then Important genes."]) ].

Definition capital_word_tokenize : string -> list string :=
  lookup_tokens
    [ ("Important genes mutate.", ["Important"; "genes"; "mutate"; "."]);
      ("Then Important genes.", ["Then"; "Important"; "genes"; "."]) ].

(** Two lines of a stopword file, and one English stopword. *)
Definition stopword_lines : list string :=
  [ "then" ++ newline; " the" ++ newline ].

Definition english_words : list string := ["the"].

Definition article (text : string) (full : bool) : Article :=
  {| abstract := Some text;
     title := Some "title";
     authors := Some "authors";
     has_full_text := Some full;
     publish_time := Some "2020" |}.

(** Three articles; the second has no full text. *)
Definition three_articles : Frame :=
  [ (5%Z, article "first" true);
    (7%Z, article "second" false);
    (9%Z, article "third" true) ].

Local Open Scope Q_scope.

(** Their vectors: the first and the third share no term. *)
Definition three_vectors : Matrix :=
  matrix_of_rows [[1; 0]; [3 # 5; 4 # 5]; [0; 1]] 2.

Definition two_labels : list Z := [2%Z; 0%Z].

End Fixtures.

(** * Properties of the text normaliser *)

Section ListFacts.

Context {A B : Type}.

Lemma enumerate_from_filter_length (p : A -> bool) (l : list A) :
  forall n,
    List.length (filter (fun iw : nat * A => p (snd iw)) (PyStr.enumerate_from n l))
    = List.length (filter p l).
Proof.
  induction l as [|x l IH]; intro n; simpl; [reflexivity|].
  destruct (p x); simpl; rewrite IH; reflexivity.
Qed.

(** The element read at index [i] passes the filter and lands just after
    the elements kept before it. *)
Lemma enumerate_from_filter_nth (p : A -> bool) (f : nat * A -> B) (l : list A) :
  forall n i x,
    nth_error l i = Some x ->
    p x = true ->
    nth_error
      (map f (filter (fun iw : nat * A => p (snd iw)) (PyStr.enumerate_from n l)))
      (List.length (filter p (firstn i l)))
    = Some (f (n + i, x)).
Proof.
  induction l as [|y l IH]; intros n i x Hnth Hp.
  - destruct i; discriminate.
  - destruct i as [|i]; simpl in Hnth.
    + injection Hnth as ->. simpl. rewrite Hp. simpl.
      rewrite Nat.add_0_r. reflexivity.
    + simpl. destruct (p y); simpl.
      * rewrite (IH (S n) i x Hnth Hp). f_equal. f_equal. f_equal. lia.
      * rewrite (IH (S n) i x Hnth Hp). f_equal. f_equal. f_equal. lia.
Qed.

Lemma flat_map_nth (f : A -> list B) (l : list A) :
  forall k x j y,
    nth_error l k = Some x ->
    nth_error (f x) j = Some y ->
    nth_error (flat_map f l) (List.length (flat_map f (firstn k l)) + j) = Some y.
Proof.
  induction l as [|z l IH]; intros k x j y Hk Hj.
  - destruct k; discriminate.
  - destruct k as [|k]; simpl in Hk.
    + injection Hk as ->. simpl.
      rewrite nth_error_app1; [exact Hj|].
      apply nth_error_Some. rewrite Hj. discriminate.
    + simpl. rewrite length_app, <- Nat.add_assoc.
      rewrite nth_error_app2 by lia.
      replace (List.length (f z) + (List.length (flat_map f (firstn k l)) + j)
               - List.length (f z))
        with (List.length (flat_map f (firstn k l)) + j) by lia.
      eapply IH; eassumption.
Qed.

Lemma flat_map_length_ext (f g : A -> list B) (l : list A) :
  (forall x, List.length (f x) = List.length (g x)) ->
  List.length (flat_map f l) = List.length (flat_map g l).
Proof.
  intro H. induction l as [|x l IH]; simpl; [reflexivity|].
  rewrite !length_app, H, IH. reflexivity.
Qed.

End ListFacts.

Section NormalizerFacts.

Import PyStr Normalizer.

Variable sent_tokenize : string -> list string.
Variable word_tokenize : string -> list string.
Variable stem : string -> string.
Variable all_stopwords : list string.

Local Notation tokenize := (tokenize_and_lowercase sent_tokenize word_tokenize).
Local Notation preprocess :=
  (all_preprocess sent_tokenize word_tokenize stem all_stopwords).
Local Notation kept := (kept_tokens sent_tokenize word_tokenize all_stopwords).
Local Notation position := (out_index sent_tokenize word_tokenize).

Lemma sentence_tokens_length (sent : string) :
  List.length (sentence_tokens word_tokenize sent)
  = List.length (filter not_in_punctuation (word_tokenize sent)).
Proof.
  unfold sentence_tokens, enumerate.
  rewrite length_map. apply enumerate_from_filter_length.
Qed.

(** What the comprehension emits for the token at index [i] of sentence
    [k], provided the token is not dropped as punctuation. *)
Lemma tokenize_at (doc : string) (k i : nat) (sent w : string) :
  nth_error (sent_tokenize doc) k = Some sent ->
  nth_error (word_tokenize sent) i = Some w ->
  str_in w punctuation = false ->
  nth_error (tokenize doc) (position doc k i) = Some (fold_case (i, w)).
Proof.
  intros Hk Hi Hp.
  unfold tokenize_and_lowercase, out_index.
  rewrite (nth_error_nth _ _ EmptyString Hk).
  rewrite <- (flat_map_length_ext (sentence_tokens word_tokenize)
                (fun s => filter not_in_punctuation (word_tokenize s)))
    by apply sentence_tokens_length.
  eapply flat_map_nth; [exact Hk|].
  unfold sentence_tokens, enumerate.
  apply (enumerate_from_filter_nth not_in_punctuation fold_case
           (word_tokenize sent) 0 i w Hi).
  unfold not_in_punctuation. rewrite Hp. reflexivity.
Qed.

Lemma tokenize_at_In (doc : string) (k i : nat) (sent w : string) :
  nth_error (sent_tokenize doc) k = Some sent ->
  nth_error (word_tokenize sent) i = Some w ->
  str_in w punctuation = false ->
  In (fold_case (i, w)) (tokenize doc).
Proof.
  intros Hk Hi Hp. eapply nth_error_In. eapply tokenize_at; eassumption.
Qed.

Lemma fold_case_keep (i : nat) (w : string) :
  (isupper w = true \/ 0 < i) -> 1 < len w -> fold_case (i, w) = w.
Proof.
  intros Hc Hl. unfold fold_case.
  apply Nat.ltb_lt in Hl. rewrite Hl, andb_true_r.
  destruct Hc as [Hu | Hi].
  - rewrite Hu. reflexivity.
  - apply Nat.ltb_lt in Hi. rewrite Hi, orb_true_r. reflexivity.
Qed.

Lemma fold_case_lower (i : nat) (w : string) :
  ~ ((isupper w = true \/ 0 < i) /\ 1 < len w) -> fold_case (i, w) = lower w.
Proof.
  intro Hn. unfold fold_case.
  destruct ((isupper w || (0 <? i)) && (1 <? len w)) eqn:E; [|reflexivity].
  exfalso. apply Hn.
  apply andb_true_iff in E. destruct E as [E1 E2].
  apply Nat.ltb_lt in E2. split; [|exact E2].
  apply orb_true_iff in E1. destruct E1 as [E1 | E1]; [left; exact E1|].
  right. apply Nat.ltb_lt. exact E1.
Qed.

(** C1.  For the token [w] at index [i] of any sentence of the text (a
    token the punctuation filter lets through), the normaliser emits [w]
    unchanged when ([w] is fully upper-case or [i > 0]) and [w] is longer
    than one character, and emits [w.lower()] otherwise.  In particular a
    one-character token is always lower-cased, a fully upper-case token of
    several characters is kept at every index, index 0 included, and a
    sentence-initial ["This"] becomes ["this"]. *)
Theorem tokenize_case_policy (doc : string) (k i : nat) (sent w : string) :
  nth_error (sent_tokenize doc) k = Some sent ->
  nth_error (word_tokenize sent) i = Some w ->
  str_in w punctuation = false ->
  exists t,
    nth_error (tokenize doc) (position doc k i) = Some t
    /\ ((isupper w = true \/ 0 < i) /\ 1 < len w -> t = w)
    /\ (~ ((isupper w = true \/ 0 < i) /\ 1 < len w) -> t = lower w)
    /\ (len w = 1 -> t = lower w)
    /\ (isupper w = true -> 1 < len w -> t = w)
    /\ (w = "This"%string -> i = 0 -> t = "this"%string).
Proof.
  intros Hk Hi Hp. exists (fold_case (i, w)).
  split; [eapply tokenize_at; eassumption|].
  repeat split.
  - intros [Hc Hl]. apply fold_case_keep; assumption.
  - apply fold_case_lower.
  - intro Hl. apply fold_case_lower. intros [_ H]. lia.
  - intros Hu Hl. apply fold_case_keep; [left|]; assumption.
  - intros -> ->. reflexivity.
Qed.

Lemma lower_char_changes (c : ascii) :
  is_ascii_upper c = true -> lower_char c <> c.
Proof.
  intros Hu Heq. unfold lower_char in Heq. rewrite Hu in Heq.
  unfold is_ascii_upper in Hu. cbv zeta in Hu.
  apply andb_true_iff in Hu. destruct Hu as [_ Hle].
  apply Nat.leb_le in Hle.
  apply (f_equal nat_of_ascii) in Heq.
  rewrite nat_ascii_embedding in Heq by lia. lia.
Qed.

(** Lower-casing changes every string that has a capital letter. *)
Lemma lower_changes_upper (w : string) :
  any_char is_ascii_upper w = true -> lower w <> w.
Proof.
  induction w as [|c w IH]; simpl; intros Hu Heq; [discriminate|].
  injection Heq as Hc Hw.
  apply orb_true_iff in Hu. destruct Hu as [Hu | Hu].
  - exact (lower_char_changes c Hu Hc).
  - exact (IH Hu Hw).
Qed.

(** The stopword filter and the stemmer, token by token. *)
Lemma preprocess_In (doc w : string) :
  In w (tokenize doc) ->
  list_in w all_stopwords = false ->
  In w (kept doc) /\ In (stem w) (preprocess doc).
Proof.
  intros Hin Hs.
  assert (Hk : In w (kept doc)).
  { unfold kept_tokens. apply filter_In. split; [exact Hin|].
    rewrite Hs. reflexivity. }
  split; [exact Hk|].
  unfold all_preprocess. apply in_map. exact Hk.
Qed.

(** Whatever the stemmer.  A token of several characters at an index
    greater than 0 is emitted with its case untouched, whether or not it is upper-case or
    lower-case ("Important" stays "Important").  The stopword test compares
    the emitted token as it is, so such a token survives the filter (and is
    stemmed into the output) whenever its exact spelling is not in the
    stopword list, the list holding its lower-case form or not.  The same
    word opening a sentence is emitted lower-cased when it is not fully
    upper-case; the lower-cased token differs from the word as soon as the
    word has a capital letter, so one surface word yields two different
    tokens, and the two terms [stem w] and [stem (lower w)], according to
    where it stands. *)
Theorem mid_sentence_case_preserved (doc : string) (k i : nat) (sent w : string) :
  nth_error (sent_tokenize doc) k = Some sent ->
  nth_error (word_tokenize sent) i = Some w ->
  0 < i ->
  1 < len w ->
  str_in w punctuation = false ->
  nth_error (tokenize doc) (position doc k i) = Some w
  /\ (list_in w all_stopwords = false ->
      In w (kept doc) /\ In (stem w) (preprocess doc))
  /\ (isupper w = false ->
      forall k0 sent0,
        nth_error (sent_tokenize doc) k0 = Some sent0 ->
        nth_error (word_tokenize sent0) 0 = Some w ->
        nth_error (tokenize doc) (position doc k0 0) = Some (lower w)
        /\ (any_char is_ascii_upper w = true -> lower w <> w)
        /\ (list_in (lower w) all_stopwords = false ->
            In (stem (lower w)) (preprocess doc))).
Proof.
  intros Hk Hi Hpos Hlen Hp.
  assert (Hat : nth_error (tokenize doc) (position doc k i) = Some w).
  { rewrite (tokenize_at doc k i sent w Hk Hi Hp).
    f_equal. apply fold_case_keep; [right|]; assumption. }
  split; [exact Hat|]. split.
  - intro Hs. apply preprocess_In; [|exact Hs].
    eapply nth_error_In. exact Hat.
  - intros Hu k0 sent0 Hk0 H0.
    assert (H0at : nth_error (tokenize doc) (position doc k0 0) = Some (lower w)).
    { rewrite (tokenize_at doc k0 0 sent0 w Hk0 H0 Hp).
      f_equal. apply fold_case_lower.
      intros [[Hu' | Hlt] _]; [congruence | lia]. }
    split; [exact H0at|]. split; [apply lower_changes_upper|].
    intro Hs. apply preprocess_In; [|exact Hs].
    eapply nth_error_In. exact H0at.
Qed.

(** C9.  A text that is empty or holds white space only is normalised to
    the empty token sequence, by [tokenize_and_lowercase] and by
    [all_preprocess]; both are total functions of the text, so no error can
    be raised.  The tokenisers are asked for what NLTK's do on such a text:
    the sentences of a blank text are blank, and a blank sentence has no
    word token. *)
Theorem blank_text_no_tokens (doc : string) :
  (forall d s, is_blank d = true -> In s (sent_tokenize d) -> is_blank s = true) ->
  (forall s, is_blank s = true -> word_tokenize s = []) ->
  is_blank doc = true ->
  tokenize doc = [] /\ preprocess doc = [].
Proof.
  intros Hsent Hword Hblank.
  assert (Ht : tokenize doc = []).
  { unfold tokenize_and_lowercase.
    assert (Hall : forall s, In s (sent_tokenize doc) ->
                             sentence_tokens word_tokenize s = []).
    { intros s Hs. unfold sentence_tokens.
      rewrite (Hword s (Hsent doc s Hblank Hs)). reflexivity. }
    induction (sent_tokenize doc) as [|s l IH]; simpl; [reflexivity|].
    rewrite (Hall s (or_introl eq_refl)), IH; [reflexivity|].
    intros s' Hs'. apply Hall. right. exact Hs'. }
  split; [exact Ht|].
  unfold all_preprocess. rewrite Ht. reflexivity.
Qed.

Lemma prefix_all_char (p : ascii -> bool) (u s : string) :
  all_char p s = true -> prefix u s = true -> all_char p u = true.
Proof.
  revert s. induction u as [|c u IH]; intros s Hs Hpre; [reflexivity|].
  destruct s as [|d s]; simpl in Hpre; [discriminate|].
  destruct (ascii_dec c d) as [-> | Hne]; [|discriminate].
  simpl in Hs. apply andb_true_iff in Hs. destruct Hs as [Hd Hs].
  simpl. rewrite Hd. simpl. eapply IH; eassumption.
Qed.

(** A substring has only characters of the string it occurs in. *)
Lemma str_in_all_char (p : ascii -> bool) (u s : string) :
  all_char p s = true -> str_in u s = true -> all_char p u = true.
Proof.
  induction s as [|d s IH]; intros Hs Hin; simpl in Hin.
  - rewrite orb_false_r in Hin. eapply prefix_all_char; eassumption.
  - apply orb_true_iff in Hin. destruct Hin as [Hin | Hin].
    + eapply prefix_all_char; eassumption.
    + apply IH; [|exact Hin].
      simpl in Hs. apply andb_true_iff in Hs. exact (proj2 Hs).
Qed.

Lemma lower_char_of_upper (c : ascii) :
  is_ascii_upper c = true -> is_ascii_lower (lower_char c) = true.
Proof.
  intro Hu. unfold lower_char. rewrite Hu.
  unfold is_ascii_upper in Hu. unfold is_ascii_lower. cbv zeta in *.
  apply andb_true_iff in Hu. destruct Hu as [H1 H2].
  apply Nat.leb_le in H1. apply Nat.leb_le in H2.
  rewrite nat_ascii_embedding by lia.
  apply andb_true_iff. split; apply Nat.leb_le; lia.
Qed.

(** A string whose lower-cased form has no lower-case letter had no letter
    to lower. *)
Lemma lower_without_letters (w : string) :
  all_char (fun c => negb (is_ascii_lower c)) (lower w) = true -> lower w = w.
Proof.
  induction w as [|c w IH]; simpl; intro H; [reflexivity|].
  apply andb_true_iff in H. destruct H as [Hc Hw].
  rewrite (IH Hw). f_equal.
  destruct (is_ascii_upper c) eqn:Hu.
  - rewrite (lower_char_of_upper c Hu) in Hc. discriminate.
  - unfold lower_char. rewrite Hu. reflexivity.
Qed.

Lemma fold_case_not_in_punctuation (i : nat) (w : string) :
  str_in w punctuation = false -> str_in (fold_case (i, w)) punctuation = false.
Proof.
  intro Hw. unfold fold_case.
  destruct ((isupper w || (0 <? i)) && (1 <? len w)); [exact Hw|].
  destruct (str_in (lower w) punctuation) eqn:Hl; [|reflexivity].
  rewrite (lower_without_letters w) in Hl; [congruence|].
  eapply str_in_all_char; [|exact Hl]. reflexivity.
Qed.

Lemma tokenize_not_in_punctuation (doc t : string) :
  In t (tokenize doc) -> str_in t punctuation = false.
Proof.
  unfold tokenize_and_lowercase. intro H.
  apply in_flat_map in H. destruct H as [sent [_ H]].
  unfold sentence_tokens in H. apply in_map_iff in H.
  destruct H as [[i w] [<- H]]. apply filter_In in H. destruct H as [_ H].
  simpl in H. unfold not_in_punctuation in H. apply negb_true_iff in H.
  apply fold_case_not_in_punctuation. exact H.
Qed.

(** Every token handed to the stemmer passed both tests as emitted: it is
    not in the stopword list, it does not occur in [string.punctuation],
    and so it is not a single punctuation character. *)
Theorem kept_tokens_filtered (doc t : string) :
  In t (kept doc) ->
  list_in t all_stopwords = false
  /\ str_in t punctuation = false
  /\ (forall c, t = String c EmptyString -> is_punct_char c = false).
Proof.
  unfold kept_tokens. intro H. apply filter_In in H. destruct H as [Hin Hs].
  apply negb_true_iff in Hs. split; [exact Hs|].
  pose proof (tokenize_not_in_punctuation doc t Hin) as Hp.
  split; [exact Hp|].
  intros c ->. exact Hp.
Qed.

End NormalizerFacts.

Section NormalizerRuns.

Import PyStr Normalizer Examples.

Local Open Scope string_scope.

Local Notation run_tokenize :=
  (tokenize_and_lowercase recorded_sent_tokenize recorded_word_tokenize).
Local Notation run_position :=
  (out_index recorded_sent_tokenize recorded_word_tokenize).

(** [tokenize_case_policy] on the two sentences of the acronym text: the
    sentence-initial "This" is lower-cased, the sentence-initial "BRCA1" is
    kept. *)
Lemma tokenize_case_policy_run :
  (exists t, nth_error (run_tokenize acronym_doc) (run_position acronym_doc 1 0) = Some t
             /\ t = "this")
  /\ (exists t, nth_error (run_tokenize acronym_doc) (run_position acronym_doc 0 0) = Some t
                /\ t = "BRCA1")
  /\ run_tokenize acronym_doc
     = ["BRCA1"; "is"; "an"; "important"; "gene"; "this"; "BRCA1"; "test"].
Proof.
  split; [|split].
  - destruct (tokenize_case_policy recorded_sent_tokenize recorded_word_tokenize
                acronym_doc 1 0 "This BRCA1 test." "This"
                eq_refl eq_refl eq_refl)
      as [t [Ht [_ [_ [_ [_ Hthis]]]]]].
    exists t. split; [exact Ht | exact (Hthis eq_refl eq_refl)].
  - destruct (tokenize_case_policy recorded_sent_tokenize recorded_word_tokenize
                acronym_doc 0 0 "BRCA1 is an important gene." "BRCA1"
                eq_refl eq_refl eq_refl)
      as [t [Ht [_ [_ [_ [Hup _]]]]]].
    exists t. split; [exact Ht|]. apply Hup; [reflexivity|].
    unfold len. simpl. lia.
  - reflexivity.
Defined.

(** [mid_sentence_case_preserved] on "Then The Important virus.": the
    second "The" is kept as it is and passes the stopword test, while the
    "The" that opens the first sentence is lower-cased (and then dropped as
    a stopword). *)
Lemma mid_sentence_case_preserved_run :
  nth_error (run_tokenize stopword_doc) (run_position stopword_doc 1 1) = Some "The"
  /\ In "The" (kept_tokens recorded_sent_tokenize recorded_word_tokenize
                 some_stopwords stopword_doc)
  /\ nth_error (run_tokenize stopword_doc) (run_position stopword_doc 0 0) = Some "the"
  /\ all_preprocess recorded_sent_tokenize recorded_word_tokenize (fun w => w)
       some_stopwords stopword_doc
     = ["virus"; "spreads"; "The"; "Important"; "virus"].
Proof.
  destruct (mid_sentence_case_preserved recorded_sent_tokenize
              recorded_word_tokenize (fun w => w) some_stopwords
              stopword_doc 1 1 "Then The Important virus." "The"
              eq_refl eq_refl) as [Hat [Hkept Hfirst]].
  - lia.
  - unfold len. simpl. lia.
  - reflexivity.
  - split; [exact Hat|]. split; [exact (proj1 (Hkept eq_refl))|].
    split; [|reflexivity].
    exact (proj1 (Hfirst eq_refl 0 "The virus spreads." eq_refl eq_refl)).
Defined.

(** [kept_tokens_filtered] on the token "virus" of the stopword text. *)
Lemma kept_tokens_filtered_run :
  list_in "virus" some_stopwords = false
  /\ str_in "virus" punctuation = false.
Proof.
  destruct (kept_tokens_filtered recorded_sent_tokenize recorded_word_tokenize
              some_stopwords stopword_doc "virus") as [Hs [Hp _]].
  - simpl. left. reflexivity.
  - split; assumption.
Defined.

Lemma lookup_tokens_blank (tbl : list (string * list string)) (s : string) :
  forallb (fun kv => negb (is_blank (fst kv))) tbl = true ->
  is_blank s = true ->
  lookup_tokens tbl s = [].
Proof.
  intros Htbl Hs. induction tbl as [|[k v] tbl IH]; simpl; [reflexivity|].
  simpl in Htbl. apply andb_true_iff in Htbl. destruct Htbl as [Hk Htbl].
  destruct (String.eqb s k) eqn:E.
  - apply String.eqb_eq in E. subst k. rewrite Hs in Hk. discriminate.
  - apply IH. exact Htbl.
Defined.

(** [blank_text_no_tokens] on a text of two spaces and a newline. *)
Lemma blank_text_no_tokens_run :
  run_tokenize (String " " (String " " (String (ascii_of_nat 10) EmptyString))) = []
  /\ all_preprocess recorded_sent_tokenize recorded_word_tokenize (fun w => w)
       some_stopwords
       (String " " (String " " (String (ascii_of_nat 10) EmptyString))) = [].
Proof.
  apply (blank_text_no_tokens recorded_sent_tokenize recorded_word_tokenize
           (fun w => w) some_stopwords).
  - intros d s Hd Hin.
    unfold recorded_sent_tokenize in Hin.
    rewrite (lookup_tokens_blank recorded_sentences d eq_refl Hd) in Hin.
    destruct Hin.
  - intros s Hs. apply (lookup_tokens_blank recorded_words s eq_refl Hs).
  - reflexivity.
Defined.

(** C2.  On a text whose word tokens include "..." and "--", both tokens
    made of punctuation characters only, the normaliser keeps the two
    tokens: neither is a substring of [string.punctuation], which is what
    the comprehension tests.  They reach the stemmer, whatever it is. *)
Theorem punctuation_filter_keeps_ellipsis :
  run_tokenize ellipsis_doc = ["wait"; "..."; "what"; "--"; "then"]
  /\ punctuation_only "..." = true
  /\ punctuation_only "--" = true
  /\ str_in "..." punctuation = false
  /\ str_in "--" punctuation = false
  /\ (forall stem,
        all_preprocess recorded_sent_tokenize recorded_word_tokenize stem
          some_stopwords ellipsis_doc
        = [stem "wait"; stem "..."; stem "what"; stem "--"]).
Proof.
  repeat split; reflexivity.
Qed.

End NormalizerRuns.

(** * Properties of the similarity matrix *)

Section SimilarityFacts.

Import Similarity.

Local Open Scope Q_scope.

Lemma sumQ_ext (f g : nat -> Q) (n : nat) :
  (forall k, (k < n)%nat -> f k = g k) -> sumQ f n = sumQ g n.
Proof.
  induction n as [|n IH]; intro H; simpl; [reflexivity|].
  rewrite IH, (H n) by (intros; try apply H; lia). reflexivity.
Qed.

Lemma sumQ_nonneg (f : nat -> Q) (n : nat) :
  (forall k, (k < n)%nat -> 0 <= f k) -> 0 <= sumQ f n.
Proof.
  induction n as [|n IH]; intro H; simpl; [lra|].
  assert (0 <= sumQ f n) by (apply IH; intros; apply H; lia).
  assert (0 <= f n) by (apply H; lia).
  lra.
Qed.

Lemma sumQ_zero (f : nat -> Q) (n : nat) :
  (forall k, (k < n)%nat -> f k == 0) -> sumQ f n == 0.
Proof.
  induction n as [|n IH]; intro H; simpl; [reflexivity|].
  rewrite IH, (H n) by (intros; try apply H; lia). lra.
Qed.

End SimilarityFacts.

Section SimilarityRuns.

Import Similarity Examples.

Local Open Scope Q_scope.

Lemma no_rounding_ok : exact_on_0_1_monotone no_rounding.
Proof.
  unfold no_rounding. repeat split; try reflexivity; intros x y H; exact H.
Defined.

End SimilarityRuns.

(** * Properties of the similarity compaction *)

Section DictFacts.

Import Compactor.

Context {V : Type}.

Lemma dict_set_fresh (k : Z) (v : V) (d : list (Z * V)) :
  ~ In k (map fst d) -> dict_set k v d = d ++ [(k, v)].
Proof.
  induction d as [|[k' v'] d IH]; intro Hk; simpl; [reflexivity|].
  simpl in Hk. destruct (Z.eqb_spec k k') as [-> | Hne].
  - exfalso. apply Hk. left. reflexivity.
  - rewrite IH; [reflexivity|]. intro H. apply Hk. right. exact H.
Qed.

Lemma dict_fold_nodup (kvs acc : list (Z * V)) :
  NoDup (map fst (acc ++ kvs)) ->
  fold_left (fun d kv => dict_set (fst kv) (snd kv) d) kvs acc = acc ++ kvs.
Proof.
  revert acc. induction kvs as [|[k v] kvs IH]; intros acc Hnd; simpl.
  - rewrite app_nil_r. reflexivity.
  - rewrite dict_set_fresh.
    + rewrite IH; rewrite <- app_assoc; [reflexivity | exact Hnd].
    + rewrite map_app in Hnd. simpl in Hnd.
      apply NoDup_remove_2 in Hnd. intro H. apply Hnd.
      apply in_or_app. left. exact H.
Qed.

(** A comprehension over pairwise distinct keys builds the dict whose items
    are the pairs read, in the order read. *)
Lemma dict_of_items_nodup (kvs : list (Z * V)) :
  NoDup (map fst kvs) -> dict_of_items kvs = kvs.
Proof.
  intro H. unfold dict_of_items. rewrite dict_fold_nodup; [reflexivity | exact H].
Qed.

Lemma dict_get_nth (d : list (Z * V)) :
  forall i k v,
    NoDup (map fst d) ->
    nth_error d i = Some (k, v) ->
    dict_get k d = Some v.
Proof.
  induction d as [|[k' v'] d IH]; intros i k v Hnd Hi.
  - destruct i; discriminate.
  - simpl in Hnd. inversion Hnd as [|? ? Hnotin Hnd']; subst.
    destruct i as [|i]; simpl in Hi.
    + injection Hi as -> ->. simpl. rewrite Z.eqb_refl. reflexivity.
    + simpl. destruct (Z.eqb_spec k k') as [-> | Hne].
      * exfalso. apply Hnotin.
        apply nth_error_In in Hi. apply (in_map fst) in Hi. exact Hi.
      * eapply IH; eassumption.
Qed.

End DictFacts.

Section SortFacts.

Import Compactor.

Local Open Scope Q_scope.

Lemma insert_desc_perm (x : Z * Q) (l : Series) :
  Permutation (insert_desc x l) (x :: l).
Proof.
  induction l as [|y l IH]; simpl; [apply Permutation_refl|].
  destruct (Qle_bool (snd y) (snd x)); [apply Permutation_refl|].
  eapply Permutation_trans; [apply perm_skip; exact IH | apply perm_swap].
Qed.

Lemma sort_values_desc_perm (s : Series) : Permutation (sort_values_desc s) s.
Proof.
  induction s as [|x s IH]; simpl; [apply perm_nil|].
  eapply Permutation_trans; [apply insert_desc_perm | apply perm_skip; exact IH].
Qed.

Lemma insert_desc_sorted (x : Z * Q) (l : Series) :
  scores_descending l -> scores_descending (insert_desc x l).
Proof.
  unfold scores_descending.
  induction l as [|y l IH]; intro Hs; simpl.
  - constructor; constructor.
  - destruct (Qle_bool (snd y) (snd x)) eqn:E.
    + apply Qle_bool_iff in E. constructor; [exact Hs|].
      constructor; [exact E|].
      apply StronglySorted_inv in Hs. destruct Hs as [_ Hall].
      eapply Forall_impl; [|exact Hall].
      intros z Hz. simpl in *. eapply Qle_trans; eassumption.
    + assert (Hlt : snd x <= snd y).
      { destruct (Qlt_le_dec (snd x) (snd y)) as [H | H].
        - apply Qlt_le_weak. exact H.
        - apply Qle_bool_iff in H. congruence. }
      apply StronglySorted_inv in Hs. destruct Hs as [Hs Hall].
      constructor; [apply IH; exact Hs|].
      apply Forall_forall. intros z Hz.
      apply (Permutation_in _ (insert_desc_perm x l)) in Hz.
      destruct Hz as [<- | Hz]; [exact Hlt|].
      rewrite Forall_forall in Hall. apply Hall. exact Hz.
Qed.

Lemma sort_values_desc_sorted (s : Series) :
  scores_descending (sort_values_desc s).
Proof.
  induction s as [|x s IH]; simpl.
  - constructor.
  - apply insert_desc_sorted. exact IH.
Qed.

Lemma sorted_app_inv (l1 l2 : Series) :
  scores_descending (l1 ++ l2) ->
  scores_descending l1
  /\ forall a b, In a l1 -> In b l2 -> snd b <= snd a.
Proof.
  unfold scores_descending.
  induction l1 as [|x l1 IH]; simpl; intro Hs.
  - split; [constructor | intros a b []].
  - apply StronglySorted_inv in Hs. destruct Hs as [Hs Hall].
    destruct (IH Hs) as [Hs1 Hcross]. split.
    + constructor; [exact Hs1|].
      rewrite Forall_forall in *. intros z Hz. apply Hall.
      apply in_or_app. left. exact Hz.
    + intros a b [<- | Ha] Hb.
      * rewrite Forall_forall in Hall. apply Hall.
        apply in_or_app. right. exact Hb.
      * apply Hcross; assumption.
Qed.

(** What [nlargest] returns: a prefix of the values in descending order,
    so it is descending, comes from the series, has the expected length,
    and whatever it leaves out is no larger than what it keeps. *)
Lemma nlargest_spec (n : nat) (s : Series) :
  List.length (nlargest n s) = Nat.min n (List.length s)
  /\ scores_descending (nlargest n s)
  /\ incl (nlargest n s) s
  /\ (forall a b, In a s -> ~ In a (nlargest n s) -> In b (nlargest n s) ->
                  snd a <= snd b)
  /\ (List.length s <= n -> forall a, In a s -> In a (nlargest n s))%nat.
Proof.
  unfold nlargest.
  pose proof (sort_values_desc_perm s) as Hperm.
  pose proof (sort_values_desc_sorted s) as Hsorted.
  rewrite <- (firstn_skipn n (sort_values_desc s)) in Hsorted.
  apply sorted_app_inv in Hsorted. destruct Hsorted as [Hs1 Hcross].
  split; [|split; [exact Hs1|split; [|split]]].
  - rewrite length_firstn, (Permutation_length Hperm). reflexivity.
  - intros a Ha. apply (Permutation_in _ Hperm).
    rewrite <- (firstn_skipn n (sort_values_desc s)).
    apply in_or_app. left. exact Ha.
  - intros a b Ha Hnot Hb. apply Hcross; [exact Hb|].
    apply (Permutation_in _ (Permutation_sym Hperm)) in Ha.
    rewrite <- (firstn_skipn n (sort_values_desc s)) in Ha.
    apply in_app_or in Ha. destruct Ha as [Ha | Ha]; [contradiction | exact Ha].
  - intros Hlen a Ha.
    rewrite firstn_all2 by (rewrite (Permutation_length Hperm); exact Hlen).
    apply (Permutation_in _ (Permutation_sym Hperm)). exact Ha.
Qed.

Lemma nlargest_keys_nodup (n : nat) (s : Series) :
  NoDup (map fst s) -> NoDup (map fst (nlargest n s)).
Proof.
  intro Hnd. unfold nlargest.
  assert (Hall : NoDup (map fst (sort_values_desc s))).
  { eapply Permutation_NoDup; [|exact Hnd].
    apply Permutation_map, Permutation_sym, sort_values_desc_perm. }
  rewrite <- (firstn_skipn n (sort_values_desc s)), map_app in Hall.
  apply NoDup_app_remove_r in Hall. exact Hall.
Qed.

End SortFacts.

Section CompactorFacts.

Import Similarity Compactor.

Local Open Scope Q_scope.

Lemma combine_keys {A B : Type} (l : list A) (l' : list B) :
  List.length l = List.length l' -> map fst (combine l l') = l.
Proof.
  revert l'. induction l as [|x l IH]; intros [|y l'] H; simpl in *;
    try reflexivity; try discriminate.
  rewrite IH by lia. reflexivity.
Qed.

Lemma combine_nth_error {A B : Type} (l : list A) (l' : list B) :
  forall i x y,
    nth_error l i = Some x -> nth_error l' i = Some y ->
    nth_error (combine l l') i = Some (x, y).
Proof.
  revert l'. induction l as [|a l IH]; intros [|b l'] [|i] x y Hx Hy;
    simpl in *; try discriminate.
  - congruence.
  - apply IH; assumption.
Qed.

Lemma map_seq_nth_error {B : Type} (f : nat -> B) (n i : nat) :
  (i < n)%nat -> nth_error (map f (seq 0 n)) i = Some (f i).
Proof.
  intro Hi. rewrite nth_error_map, nth_error_seq.
  apply Nat.ltb_lt in Hi. rewrite Hi. reflexivity.
Qed.

Lemma row_series_keys (df : DataFrame) (i : nat) :
  List.length (columns df) = ncols (values df) ->
  map fst (row_series df i) = columns df.
Proof.
  intro H. unfold row_series. apply combine_keys.
  rewrite length_map, length_seq. exact H.
Qed.

Lemma row_series_length (df : DataFrame) (i : nat) :
  List.length (columns df) = ncols (values df) ->
  List.length (row_series df i) = ncols (values df).
Proof.
  intro H. rewrite <- (length_map fst), row_series_keys by exact H. exact H.
Qed.

(** C6, as the code has it.  Over [D] documents with pairwise distinct
    ids, the entry of [similarities_dict] for a document holds exactly
    [min 100 D] neighbours, in non-increasing order of score; they are the
    largest scores of the document's whole row, its own self-similarity
    included: nothing removes the self entry, and it is in the list
    whenever [D <= 100]. *)
Theorem similarities_dict_top100 (sims : Matrix) (idx : list Z) (df : DataFrame) :
  DataFrame_of sims idx idx = Some df ->
  NoDup idx ->
  forall i, (i < nrows sims)%nat ->
    exists nbrs,
      dict_get (nth i idx 0%Z) (similarities_dict df) = Some nbrs
      /\ List.length nbrs = Nat.min 100 (nrows sims)
      /\ scores_descending nbrs
      /\ incl nbrs (row_series df i)
      /\ (forall a b, In a (row_series df i) -> ~ In a nbrs -> In b nbrs ->
                      snd a <= snd b)
      /\ ((nrows sims <= 100)%nat -> In (nth i idx 0%Z, entry sims i i) nbrs).
Proof.
  intros Hdf Hnd i Hi.
  unfold DataFrame_of in Hdf.
  destruct ((List.length idx =? nrows sims)%nat
            && (List.length idx =? ncols sims)%nat) eqn:Hshape; [|discriminate].
  injection Hdf as <-.
  apply andb_true_iff in Hshape. destruct Hshape as [Hr Hc].
  apply Nat.eqb_eq in Hr. apply Nat.eqb_eq in Hc.
  set (df := {| index := idx; columns := idx; values := sims |}).
  assert (Hcols : List.length (columns df) = ncols (values df)) by exact Hc.
  set (compact := fun row : Z * Series =>
                    let (from_idx, sim_series) := row in
                    (from_idx, dict_of_items (items (nlargest 100 sim_series)))).
  assert (Hkeys : map fst (map compact (iterrows df)) = idx).
  { rewrite map_map.
    rewrite (map_ext (fun x => fst (compact x)) fst) by (intros [? ?]; reflexivity).
    unfold iterrows. apply combine_keys.
    rewrite length_map, length_seq. exact Hr. }
  assert (Hdict : similarities_dict df = map compact (iterrows df)).
  { unfold similarities_dict. fold compact.
    apply dict_of_items_nodup. rewrite Hkeys. exact Hnd. }
  assert (Hidx : nth_error idx i = Some (nth i idx 0%Z)).
  { apply nth_error_nth'. lia. }
  assert (Hrow : nth_error (map compact (iterrows df)) i
                 = Some (nth i idx 0%Z,
                         dict_of_items (items (nlargest 100 (row_series df i))))).
  { rewrite nth_error_map. unfold iterrows.
    rewrite (combine_nth_error idx _ i _ (row_series df i) Hidx).
    - reflexivity.
    - apply map_seq_nth_error. exact Hi. }
  exists (nlargest 100 (row_series df i)).
  assert (Hnbrs : dict_of_items (items (nlargest 100 (row_series df i)))
                  = nlargest 100 (row_series df i)).
  { apply dict_of_items_nodup. apply nlargest_keys_nodup.
    rewrite row_series_keys by exact Hcols. exact Hnd. }
  destruct (nlargest_spec 100 (row_series df i))
    as (Hlen & Hsorted & Hincl & Htop & Hall).
  rewrite (row_series_length df i Hcols) in Hlen, Hall.
  change (ncols (values df)) with (ncols sims) in Hlen, Hall.
  split.
  { rewrite Hdict. rewrite <- Hnbrs at 1.
    eapply dict_get_nth; [|exact Hrow]. rewrite Hkeys. exact Hnd. }
  split; [rewrite Hlen; f_equal; lia|].
  split; [exact Hsorted|]. split; [exact Hincl|]. split; [exact Htop|].
  intro Hsmall. apply Hall; [lia|].
  eapply nth_error_In. unfold row_series.
  apply combine_nth_error; [exact Hidx|].
  change (ncols (values df)) with (ncols sims).
  change (entry (values df) i) with (entry sims i).
  apply map_seq_nth_error. lia.
Qed.

End CompactorFacts.

Section CompactorRuns.

Import Similarity Compactor Examples.

Local Open Scope Q_scope.

Lemma two_ids_nodup : NoDup two_ids.
Proof.
  unfold two_ids. constructor.
  - intros [H | []]. discriminate.
  - constructor; [intros [] | constructor].
Defined.

(** [similarities_dict_top100] on the two-document matrix, document 20. *)
Lemma similarities_dict_top100_run :
  exists nbrs,
    dict_get 20%Z
      (similarities_dict {| index := two_ids; columns := two_ids; values := two_sims |})
    = Some nbrs
    /\ List.length nbrs = 2%nat
    /\ scores_descending nbrs
    /\ In (20%Z, 1) nbrs.
Proof.
  destruct (similarities_dict_top100 two_sims two_ids
              {| index := two_ids; columns := two_ids; values := two_sims |}
              eq_refl two_ids_nodup 1%nat)
    as [nbrs (Hget & Hlen & Hsorted & _ & _ & Hself)].
  - simpl. lia.
  - exists nbrs. split; [exact Hget|]. split; [exact Hlen|].
    split; [exact Hsorted|]. apply Hself. simpl. lia.
Defined.

(** The claim as worded fails on two documents: the neighbour list of
    document 10 has two entries, more than [min top_n (D - 1) = 1], and its
    first entry is the document itself. *)
Lemma neighbor_list_keeps_self :
  exists df nbrs,
    DataFrame_of two_sims two_ids two_ids = Some df
    /\ dict_get 10%Z (similarities_dict df) = Some nbrs
    /\ nbrs = [(10%Z, 1); (20%Z, 1 # 2)]
    /\ (Nat.min 100 (nrows two_sims - 1) < List.length nbrs)%nat
    /\ In (10%Z, 1) nbrs.
Proof.
  eexists. eexists.
  split; [reflexivity|]. split; [reflexivity|]. split; [reflexivity|].
  split; [simpl; lia | left; reflexivity].
Qed.

End CompactorRuns.

(** * The graph behind the spectral embedding *)

Section SpectralFacts.

Import Similarity Spectral Examples.

Local Open Scope Q_scope.

(** C7.  As the notebook configures the estimator, with
    [affinity = "precomputed"], the graph that is decomposed is the whole
    similarity matrix, whatever [n_neighbors] is and whatever the
    nearest-neighbour builder would return.  On 202 documents of two
    topics, documents 0 and 101 are on different topics: each has 100
    other documents strictly more similar to it than the other one is, so
    neither can select the other among its 100 nearest, and the
    nearest-neighbour graph has no edge between them and at most 100
    edges at document 0.  The graph that is decomposed joins the two, and
    joins document 0 to all 201 others. *)
Theorem precomputed_affinity_joins_unselected_pair :
  (forall kneighbors_graph rbf_kernel X,
      spectral_embedding_graph kneighbors_graph rbf_kernel X = X)
  /\ n_neighbors notebook_estimator = 100%nat
  /\ exists sims,
       cosine_sims no_rounding two_topic_docs = Some sims
       /\ more_similar_count sims 0 101 = 100%nat
       /\ more_similar_count sims 101 0 = 100%nat
       /\ knn_edge 100 sims 0 101 = false
       /\ List.length (filter (knn_edge 100 sims 0) (seq 0 (nrows sims))) = 100%nat
       /\ forall kneighbors_graph rbf_kernel,
            In 101%nat
              (neighbours (spectral_embedding_graph kneighbors_graph rbf_kernel sims) 0)
            /\ List.length
                 (neighbours
                    (spectral_embedding_graph kneighbors_graph rbf_kernel sims) 0)
               = 201%nat.
Proof.
  split; [reflexivity|]. split; [reflexivity|].
  eexists. split; [reflexivity|].
  split; [vm_compute; reflexivity|].
  split; [vm_compute; reflexivity|].
  split; [vm_compute; reflexivity|].
  split; [vm_compute; reflexivity|].
  intros kneighbors_graph rbf_kernel.
  unfold spectral_embedding_graph, affinity_matrix. simpl affinity. cbv iota.
  split.
  - apply filter_In. split; [apply in_seq; simpl; lia | vm_compute; reflexivity].
  - vm_compute. reflexivity.
Qed.

End SpectralFacts.

(** * Properties of the corpus loading *)

Section SplitFacts.

Import PyStr Corpus.

Lemma split_space_cons (s : string) :
  exists p ps, split_space s = p :: ps.
Proof.
  destruct s as [|c s]; simpl; [eexists; eexists; reflexivity|].
  destruct (Ascii.eqb c " "); [eexists; eexists; reflexivity|].
  destruct (split_space s); eexists; eexists; reflexivity.
Qed.

Lemma split_space_length (s : string) :
  List.length (split_space s) = S (count_spaces s).
Proof.
  induction s as [|c s IH]; simpl; [reflexivity|].
  destruct (Ascii.eqb c " "); simpl; [rewrite IH; reflexivity|].
  destruct (split_space_cons s) as [p [ps E]].
  rewrite E in *. simpl in *. exact IH.
Qed.

Lemma split_space_pieces (s : string) :
  Forall (fun p => count_spaces p = 0) (split_space s).
Proof.
  induction s as [|c s IH]; simpl.
  - constructor; [reflexivity | constructor].
  - destruct (Ascii.eqb c " ") eqn:E.
    + constructor; [reflexivity | exact IH].
    + destruct (split_space_cons s) as [p [ps Es]]. rewrite Es in *.
      inversion IH as [|? ? Hp Hps]; subst.
      constructor; [|exact Hps]. simpl. rewrite E. exact Hp.
Qed.

Lemma join_space_cons (c : ascii) (p : string) (ps : list string) :
  join_space (String c p :: ps) = String c (join_space (p :: ps)).
Proof.
  destruct ps; reflexivity.
Qed.

Lemma join_split_space (s : string) : join_space (split_space s) = s.
Proof.
  induction s as [|c s IH]; simpl; [reflexivity|].
  destruct (Ascii.eqb_spec c " ") as [-> | Hne].
  - destruct (split_space_cons s) as [p [ps Es]]. rewrite Es in *.
    simpl. rewrite <- IH. reflexivity.
  - destruct (split_space_cons s) as [p [ps Es]]. rewrite Es in *.
    rewrite join_space_cons, IH. reflexivity.
Qed.

(** [s.split(' ')] cuts at every space: it returns one piece more than the
    text has spaces, no piece holds a space, and joining the pieces with
    single spaces gives the text back. *)
Theorem split_space_spec (s : string) :
  List.length (split_space s) = S (count_spaces s)
  /\ Forall (fun p => count_spaces p = 0) (split_space s)
  /\ join_space (split_space s) = s.
Proof.
  split; [apply split_space_length|].
  split; [apply split_space_pieces | apply join_split_space].
Qed.

(** A row passes [data.abstract_len > 50] exactly when its abstract is
    present and holds at least 50 space characters: the length counts the
    pieces between spaces, empty ones included, not words. *)
Theorem long_abstracts_criterion (data : Frame) (label : Z) (row : Article) :
  In (label, row) (long_abstracts data)
  <-> In (label, row) data
      /\ exists s, abstract row = Some s /\ 50 <= count_spaces s.
Proof.
  unfold long_abstracts, abstract_len. rewrite filter_In. simpl.
  split.
  - intros [Hin H]. split; [exact Hin|].
    destruct (abstract row) as [s|]; [|discriminate].
    exists s. split; [reflexivity|].
    apply Nat.ltb_lt in H. rewrite split_space_length in H. lia.
  - intros [Hin [s [Hs Hc]]]. split; [exact Hin|].
    rewrite Hs. apply Nat.ltb_lt. rewrite split_space_length. lia.
Qed.

End SplitFacts.

Section StripFacts.

Import PyStr Corpus.

Local Open Scope string_scope.

Lemma lstrip_spaces (a t : string) :
  all_char is_whitespace a = true -> lstrip (a ++ t) = lstrip t.
Proof.
  induction a as [|c a IH]; simpl; intro H; [reflexivity|].
  apply andb_true_iff in H. destruct H as [Hc Ha].
  rewrite Hc. apply IH. exact Ha.
Qed.

Lemma lstrip_clean (t : string) :
  starts_with_space t = false -> lstrip t = t.
Proof.
  destruct t as [|c t]; simpl; intro H; [reflexivity|].
  rewrite H. reflexivity.
Qed.

Lemma lstrip_starts (s : string) : starts_with_space (lstrip s) = false.
Proof.
  induction s as [|c s IH]; simpl; [reflexivity|].
  destruct (is_whitespace c) eqn:E; [exact IH|]. simpl. exact E.
Qed.

Lemma rstrip_spaces (b : string) :
  all_char is_whitespace b = true -> rstrip b = "".
Proof.
  induction b as [|c b IH]; simpl; intro H; [reflexivity|].
  apply andb_true_iff in H. destruct H as [Hc Hb].
  rewrite (IH Hb), Hc. reflexivity.
Qed.

Lemma rstrip_clean (t : string) :
  ends_with_space t = false -> rstrip t = t.
Proof.
  induction t as [|c t IH]; simpl; intro H; [reflexivity|].
  destruct t as [|d t].
  - simpl. rewrite H. reflexivity.
  - rewrite (IH H). reflexivity.
Qed.

Lemma rstrip_app_spaces (t b : string) :
  all_char is_whitespace b = true -> rstrip (t ++ b) = rstrip t.
Proof.
  intro Hb. induction t as [|c t IH]; simpl.
  - apply rstrip_spaces. exact Hb.
  - rewrite IH. reflexivity.
Qed.

Lemma rstrip_ends (s : string) : ends_with_space (rstrip s) = false.
Proof.
  induction s as [|c s IH]; simpl; [reflexivity|].
  destruct (rstrip s) as [|d t] eqn:E.
  - destruct (is_whitespace c) eqn:Ec; simpl; [reflexivity | exact Ec].
  - exact IH.
Qed.

Lemma rstrip_starts (s : string) :
  starts_with_space s = false -> starts_with_space (rstrip s) = false.
Proof.
  destruct s as [|c s]; simpl; intro H; [reflexivity|].
  destruct (rstrip s); [rewrite H|]; simpl; exact H.
Qed.

Lemma lstrip_all_spaces (b : string) :
  all_char is_whitespace b = true -> lstrip b = "".
Proof.
  induction b as [|c b IH]; simpl; intro H; [reflexivity|].
  apply andb_true_iff in H. destruct H as [Hc Hb].
  rewrite Hc. apply IH. exact Hb.
Qed.

(** [line.strip()] returns the word on the line whatever white space (the
    line terminator included) surrounds it: a text that neither starts nor
    ends with white space is returned as it is, also from between two runs
    of white space.  What [strip] returns never starts or ends with white
    space. *)
Theorem strip_padded (a w b : string) :
  all_char is_whitespace a = true ->
  all_char is_whitespace b = true ->
  starts_with_space w = false ->
  ends_with_space w = false ->
  strip (a ++ w ++ b) = w
  /\ strip w = w
  /\ (forall s, starts_with_space (strip s) = false
                /\ ends_with_space (strip s) = false).
Proof.
  intros Ha Hb Hs He.
  assert (Hw : strip w = w).
  { unfold strip. rewrite (lstrip_clean w Hs). apply rstrip_clean. exact He. }
  assert (Hpad : strip (a ++ w ++ b) = w).
  { unfold strip. rewrite (lstrip_spaces a (w ++ b) Ha).
    destruct w as [|c w].
    - simpl. rewrite (lstrip_all_spaces b Hb). reflexivity.
    - rewrite lstrip_clean by exact Hs.
      rewrite (rstrip_app_spaces (String c w) b Hb).
      apply rstrip_clean. exact He. }
  split; [exact Hpad|]. split; [exact Hw|].
  intro s. unfold strip. split.
  - apply rstrip_starts, lstrip_starts.
  - apply rstrip_ends.
Qed.

End StripFacts.

Section StopwordFacts.

Import PyStr Normalizer Corpus.

Lemma list_in_In (w : string) (l : list string) :
  list_in w l = true <-> In w l.
Proof.
  unfold list_in. rewrite existsb_exists. split.
  - intros [x [Hx E]]. apply String.eqb_eq in E. subst x. exact Hx.
  - intro H. exists w. split; [exact H | apply String.eqb_refl].
Qed.

Lemma list_in_same_words (l l' : list string) (w : string) :
  same_words l l' -> list_in w l = list_in w l'.
Proof.
  intro H. destruct (list_in w l) eqn:E; symmetry.
  - apply list_in_In. apply H. apply list_in_In. exact E.
  - destruct (list_in w l') eqn:E'; [|reflexivity].
    apply list_in_In in E'. apply H in E'. apply list_in_In in E'.
    congruence.
Qed.

Lemma nodup_length_le (l : list string) :
  List.length (nodup string_dec l) <= List.length l.
Proof.
  induction l as [|x l IH]; simpl; [lia|].
  destruct (in_dec string_dec x l); simpl; lia.
Qed.

Variable sent_tokenize : string -> list string.
Variable word_tokenize : string -> list string.
Variable stem : string -> string.

(** The order in which [list(set(...))] lists the merged stopwords, and
    any repetition, is immaterial: [all_preprocess] returns the same
    tokens for every listing of the set.  A token is removed exactly when
    it is one of the English stopwords or what [strip] leaves of a line of
    the stopword file, and the merged list holds no word twice. *)
Theorem all_preprocess_any_listing (english lines listing : list string) :
  same_words listing (all_stopwords english lines) ->
  (forall doc,
      all_preprocess sent_tokenize word_tokenize stem listing doc
      = all_preprocess sent_tokenize word_tokenize stem
          (all_stopwords english lines) doc)
  /\ (forall w, list_in w listing = true
                <-> In w english \/ exists line, In line lines /\ strip line = w)
  /\ NoDup (all_stopwords english lines)
  /\ List.length (all_stopwords english lines)
     <= List.length english + List.length lines.
Proof.
  intro Hsame. split; [|split; [|split]].
  - intro doc. unfold all_preprocess. f_equal.
    apply filter_ext. intro w. f_equal.
    apply list_in_same_words. exact Hsame.
  - intro w. rewrite list_in_In, (Hsame w).
    unfold all_stopwords, bio_stopwords.
    rewrite nodup_In, in_app_iff, in_map_iff.
    split; (intros [H | [x [H1 H2]]]; [left; exact H | right; exists x; split; assumption]).
  - apply NoDup_nodup.
  - unfold all_stopwords, bio_stopwords.
    eapply Nat.le_trans; [apply nodup_length_le|].
    rewrite length_app, length_map. lia.
Qed.

End StopwordFacts.

(** * Further properties of the text normaliser *)

Section CaseFacts.

Import PyStr Normalizer.

Lemma lower_char_idempotent (c : ascii) :
  lower_char (lower_char c) = lower_char c.
Proof.
  destruct (is_ascii_upper c) eqn:Hu.
  - pose proof (lower_char_of_upper c Hu) as Hl.
    unfold lower_char at 1.
    destruct (is_ascii_upper (lower_char c)) eqn:Hu'; [|reflexivity].
    exfalso. unfold is_ascii_upper in Hu'. unfold is_ascii_lower in Hl.
    cbv zeta in *.
    apply andb_true_iff in Hu'. apply andb_true_iff in Hl.
    destruct Hu' as [_ H1]. destruct Hl as [H2 _].
    apply Nat.leb_le in H1. apply Nat.leb_le in H2. lia.
  - unfold lower_char. rewrite Hu, Hu. reflexivity.
Qed.

Lemma lower_idempotent (w : string) : lower (lower w) = lower w.
Proof.
  induction w as [|c w IH]; simpl; [reflexivity|].
  rewrite lower_char_idempotent, IH. reflexivity.
Qed.

Lemma lower_without_capitals (w : string) :
  any_char is_ascii_upper w = false -> lower w = w.
Proof.
  induction w as [|c w IH]; simpl; intro H; [reflexivity|].
  apply orb_false_iff in H. destruct H as [Hc Hw].
  unfold lower_char. rewrite Hc, (IH Hw). reflexivity.
Qed.

Lemma fold_case_cases (i : nat) (w : string) :
  fold_case (i, w) = w \/ fold_case (i, w) = lower w.
Proof.
  unfold fold_case.
  destruct ((isupper w || (0 <? i)) && (1 <? len w)); [left | right]; reflexivity.
Qed.

Lemma fold_case_lower_form (i : nat) (w : string) :
  lower (fold_case (i, w)) = lower w.
Proof.
  destruct (fold_case_cases i w) as [E | E]; rewrite E;
    [reflexivity | apply lower_idempotent].
Qed.

(** The normaliser changes nothing but the case of a token: what it emits
    has the same lower-case form as the token read, and passing the
    emitted token through the comprehension again at the same index
    returns it unchanged. *)
Theorem fold_case_only_case (i : nat) (w : string) :
  lower (fold_case (i, w)) = lower w
  /\ fold_case (i, fold_case (i, w)) = fold_case (i, w).
Proof.
  split; [apply fold_case_lower_form|].
  destruct (fold_case_cases i w) as [E | E]; rewrite E; [exact E|].
  destruct (fold_case_cases i (lower w)) as [E' | E']; [exact E'|].
  rewrite E'. apply lower_idempotent.
Qed.

Variable sent_tokenize : string -> list string.
Variable word_tokenize : string -> list string.
Variable stem : string -> string.
Variable all_stopwords : list string.

Local Notation tokenize := (tokenize_and_lowercase sent_tokenize word_tokenize).
Local Notation words_read doc :=
  (filter not_in_punctuation (flat_map word_tokenize (sent_tokenize doc))).

Lemma sentence_tokens_lower (l : list string) :
  forall n,
    map lower
      (map fold_case
         (filter (fun iw => not_in_punctuation (snd iw)) (enumerate_from n l)))
    = map lower (filter not_in_punctuation l).
Proof.
  induction l as [|w l IH]; intro n; simpl; [reflexivity|].
  destruct (not_in_punctuation w); simpl; rewrite IH; [|reflexivity].
  f_equal. apply (fold_case_lower_form n w).
Qed.

Lemma sentence_tokens_plain (l : list string) :
  (forall w, In w l -> any_char is_ascii_upper w = false) ->
  forall n,
    map fold_case
      (filter (fun iw => not_in_punctuation (snd iw)) (enumerate_from n l))
    = filter not_in_punctuation l.
Proof.
  induction l as [|w l IH]; intros Hl n; simpl; [reflexivity|].
  assert (Hrest : forall w', In w' l -> any_char is_ascii_upper w' = false)
    by (intros w' H; apply Hl; right; exact H).
  assert (Hw : fold_case (n, w) = w).
  { destruct (fold_case_cases n w) as [E | E]; rewrite E; [reflexivity|].
    apply lower_without_capitals. apply Hl. left. reflexivity. }
  cbn [enumerate_from filter snd].
  destruct (not_in_punctuation w); cbn [map]; rewrite (IH Hrest); [|reflexivity].
  rewrite Hw. reflexivity.
Qed.

(** Up to case, [tokenize_and_lowercase] returns the word tokens of the
    text (sentences in order, tokens in order) that are not substrings of
    [string.punctuation]: one output token for each, none merged or
    repeated away; [all_preprocess] returns at most as many. *)
Theorem tokenize_up_to_case (doc : string) :
  map lower (tokenize doc) = map lower (words_read doc)
  /\ List.length (tokenize doc) = List.length (words_read doc)
  /\ List.length (all_preprocess sent_tokenize word_tokenize stem all_stopwords doc)
     <= List.length (tokenize doc).
Proof.
  assert (H : map lower (tokenize doc) = map lower (words_read doc)).
  { unfold tokenize_and_lowercase.
    induction (sent_tokenize doc) as [|s l IH]; simpl; [reflexivity|].
    rewrite map_app, filter_app, map_app, IH. f_equal.
    unfold sentence_tokens, enumerate. apply sentence_tokens_lower. }
  split; [exact H|]. split.
  - rewrite <- (length_map lower (tokenize doc)), H. apply length_map.
  - unfold all_preprocess. rewrite length_map. apply filter_length_le.
Qed.

(** On a text whose word tokens hold no capital letter the normaliser is
    the punctuation filter alone: every token is emitted as read. *)
Theorem tokenize_without_capitals (doc : string) :
  (forall s w, In s (sent_tokenize doc) -> In w (word_tokenize s) ->
               any_char is_ascii_upper w = false) ->
  tokenize doc = words_read doc.
Proof.
  intro Hlow. unfold tokenize_and_lowercase.
  induction (sent_tokenize doc) as [|s l IH]; simpl; [reflexivity|].
  rewrite filter_app, IH.
  - f_equal. unfold sentence_tokens, enumerate.
    apply sentence_tokens_plain. intros w Hw.
    apply (Hlow s w); [left; reflexivity | exact Hw].
  - intros s' w Hs' Hw. apply (Hlow s' w); [right; exact Hs' | exact Hw].
Qed.

End CaseFacts.

Section StemmedTerms.

Import PyStr Normalizer.

Variable sent_tokenize : string -> list string.
Variable word_tokenize : string -> list string.
Variable rules : string -> string.
Variable all_stopwords : list string.

Local Notation tokenize := (tokenize_and_lowercase sent_tokenize word_tokenize).
Local Notation preprocess :=
  (all_preprocess sent_tokenize word_tokenize (Snowball.stem rules) all_stopwords).
Local Notation kept := (kept_tokens sent_tokenize word_tokenize all_stopwords).
Local Notation position := (out_index sent_tokenize word_tokenize).

(** The stemmer sees no difference between a token and its case-folded
    form, wherever the token stood. *)
Lemma stem_fold_case (i : nat) (w : string) :
  Snowball.stem rules (fold_case (i, w)) = rules (lower w).
Proof.
  unfold Snowball.stem. rewrite fold_case_lower_form. reflexivity.
Qed.


End StemmedTerms.

(** * Properties of the notebook's data flow *)

Section JoinFacts.

Import Similarity Compactor Corpus Notebook.

Context {R : Type}.

Lemma matches_none (k : Z) (right : list (Z * R)) :
  ~ In k (map fst right) ->
  filter (fun m => (fst m =? k)%Z) right = [].
Proof.
  induction right as [|[k' v] right IH]; simpl; intro H; [reflexivity|].
  destruct (Z.eqb_spec k' k) as [-> | Hne].
  - exfalso. apply H. left. reflexivity.
  - apply IH. intro Hin. apply H. right. exact Hin.
Qed.

(** Under pairwise distinct labels a label has at most one match, the one
    a lookup finds. *)
Lemma matches_lookup (k : Z) (right : list (Z * R)) :
  NoDup (map fst right) ->
  filter (fun m => (fst m =? k)%Z) right
  = match dict_get k right with
    | Some v => [(k, v)]
    | None => []
    end.
Proof.
  induction right as [|[k' v] right IH]; simpl; intro Hnd; [reflexivity|].
  inversion Hnd as [|? ? Hnotin Hnd']; subst.
  rewrite (Z.eqb_sym k k').
  destruct (Z.eqb_spec k' k) as [-> | Hne].
  - rewrite (matches_none k right Hnotin). reflexivity.
  - apply IH. exact Hnd'.
Qed.

Lemma join_left_lookup (left : Frame) (right : list (Z * R)) :
  NoDup (map fst right) ->
  join_left left right = map (fun r => (r, dict_get (fst r) right)) left.
Proof.
  intro Hnd.
  induction left as [|r left IH]; [reflexivity|].
  change (join_left (r :: left) right)
    with (match filter (fun m => (fst m =? fst r)%Z) right with
          | [] => [(r, None)]
          | ms => map (fun m => (r, Some (snd m))) ms
          end ++ join_left left right).
  rewrite IH, (matches_lookup (fst r) right Hnd).
  destruct (dict_get (fst r) right) eqn:E; simpl; rewrite E; reflexivity.
Qed.

Lemma in_combine_nth {A B : Type} (l : list A) (l' : list B) (x : A) (y : B) :
  In (x, y) (combine l l') ->
  exists i, nth_error l i = Some x /\ nth_error l' i = Some y.
Proof.
  revert l'. induction l as [|a l IH]; intros [|b l'] H; simpl in H;
    try contradiction.
  destruct H as [H | H].
  - injection H as -> ->. exists 0. split; reflexivity.
  - destruct (IH l' H) as [i [H1 H2]]. exists (S i). split; assumption.
Qed.

Lemma nth_error_map_seq {B : Type} (f : nat -> B) (n i : nat) (y : B) :
  nth_error (map f (seq 0 n)) i = Some y -> (i < n)%nat /\ y = f i.
Proof.
  intro H.
  assert (Hi : (i < n)%nat).
  { assert (Hlen : (i < List.length (map f (seq 0 n)))%nat)
      by (apply nth_error_Some; rewrite H; discriminate).
    rewrite length_map, length_seq in Hlen. exact Hlen. }
  split; [exact Hi|].
  rewrite (map_seq_nth_error f n i Hi) in H. congruence.
Qed.

Lemma keys_filter_nodup (f : Z * R -> bool) (l : list (Z * R)) :
  NoDup (map fst l) -> NoDup (map fst (filter f l)).
Proof.
  induction l as [|x l IH]; simpl; intro H; [constructor|].
  inversion H as [|? ? Hnotin Hnd]; subst.
  destruct (f x); simpl; [|apply IH; exact Hnd].
  constructor; [|apply IH; exact Hnd].
  intro Hin. apply Hnotin.
  apply in_map_iff in Hin. destruct Hin as [y [Hy Hin]].
  apply filter_In in Hin. rewrite <- Hy. apply in_map. exact (proj1 Hin).
Qed.

End JoinFacts.

Section PipelineFacts.

Import Similarity Compactor Corpus Notebook.

Local Open Scope Q_scope.

Lemma interesting_in_data (data : Frame) (r : Z * Article) :
  In r (interesting_articles data) -> In r data.
Proof.
  unfold interesting_articles, dropna_subset. intro H.
  apply filter_In in H. destruct H as [H _].
  apply filter_In in H. exact (proj1 H).
Qed.

Lemma interesting_keys_nodup (data : Frame) :
  NoDup (map fst data) -> NoDup (map fst (interesting_articles data)).
Proof.
  intro H. unfold interesting_articles, dropna_subset.
  apply keys_filter_nodup, keys_filter_nodup. exact H.
Qed.

Lemma doc_models_df_lookup (data : Frame) (doc_models : Matrix) :
  List.length data = nrows doc_models ->
  NoDup (map fst data) ->
  exists df,
    doc_models_df data doc_models = Some df
    /\ NoDup (map fst df)
    /\ forall p r, nth_error data p = Some r ->
                   dict_get (fst r) df = Some (entry doc_models p).
Proof.
  intros Hlen Hnd. unfold doc_models_df.
  apply Nat.eqb_eq in Hlen. rewrite Hlen. apply Nat.eqb_eq in Hlen.
  eexists. split; [reflexivity|]. unfold RowVector.
  assert (Hkeys : map fst (combine (map fst data)
                             (map (entry doc_models) (seq 0 (nrows doc_models))))
                  = map fst data).
  { apply combine_keys. rewrite !length_map, length_seq. exact Hlen. }
  split; [rewrite Hkeys; exact Hnd|].
  intros p r Hp.
  eapply dict_get_nth with (i := p); [rewrite Hkeys; exact Hnd|].
  apply combine_nth_error.
  - rewrite nth_error_map, Hp. reflexivity.
  - apply map_seq_nth_error. rewrite <- Hlen.
    apply nth_error_Some. rewrite Hp. discriminate.
Qed.

Lemma vstack_some (width : nat) (rows : list (option RowVector)) :
  rows <> [] ->
  forallb present rows = true ->
  vstack width rows
  = Some {| nrows := List.length rows;
            ncols := width;
            entry := fun i k => match nth i rows None with
                                | Some v => v k
                                | None => 0
                                end |}.
Proof.
  intros Hne Hall. destruct rows as [|x rows]; [contradiction|].
  unfold vstack. rewrite Hall. reflexivity.
Qed.

(** Under pairwise distinct labels the join neither drops nor repeats a
    row: the joined frame is indexed like the interesting articles. *)
Lemma joined_articles_index (data : Frame) (doc_models : Matrix) :
  NoDup (map fst data) ->
  List.length data = nrows doc_models ->
  exists joined,
    joined_articles data doc_models = Some joined
    /\ joined_index joined = map fst (interesting_articles data).
Proof.
  intros Hnd Hlen.
  destruct (doc_models_df_lookup data doc_models Hlen Hnd)
    as [df (Hdf & Hdfnd & _)].
  unfold joined_articles. rewrite Hdf. eexists. split; [reflexivity|].
  unfold joined_index. rewrite (join_left_lookup _ df Hdfnd), map_map.
  reflexivity.
Qed.

(** The rows of [doc_matrix] are the vectors of the interesting articles,
    in their order, each fetched from the position its label has in
    [data]. *)
Lemma doc_matrix_rows (data : Frame) (doc_models : Matrix) :
  NoDup (map fst data) ->
  List.length data = nrows doc_models ->
  interesting_articles data <> [] ->
  exists m,
    doc_matrix data doc_models = Some m
    /\ nrows m = List.length (interesting_articles data)
    /\ ncols m = ncols doc_models
    /\ forall j p r k,
         nth_error (interesting_articles data) j = Some r ->
         nth_error data p = Some r ->
         entry m j k = entry doc_models p k.
Proof.
  intros Hnd Hlen Hne.
  destruct (doc_models_df_lookup data doc_models Hlen Hnd)
    as [df (Hdf & Hdfnd & Hlook)].
  unfold doc_matrix, joined_articles.
  rewrite Hdf, (join_left_lookup _ df Hdfnd), map_map.
  cbn [snd].
  set (rows := map (fun r : Z * Article => dict_get (fst r) df)
                 (interesting_articles data)).
  assert (Hrows_ne : rows <> []).
  { intro E. apply Hne. apply map_eq_nil in E. exact E. }
  assert (Hall : forallb present rows = true).
  { apply forallb_forall. intros x Hx. unfold rows in Hx.
    apply in_map_iff in Hx. destruct Hx as [r [<- Hr]].
    apply interesting_in_data, In_nth_error in Hr. destruct Hr as [p Hp].
    rewrite (Hlook p r Hp). reflexivity. }
  rewrite (vstack_some _ rows Hrows_ne Hall).
  eexists. split; [reflexivity|]. cbn [nrows ncols entry].
  split; [unfold rows; apply length_map|]. split; [reflexivity|].
  intros j p r k Hj Hp.
  assert (Hnth : nth_error rows j = Some (Some (entry doc_models p))).
  { unfold rows. rewrite nth_error_map, Hj. cbn. rewrite (Hlook p r Hp).
    reflexivity. }
  rewrite (nth_error_nth _ _ None Hnth). reflexivity.
Qed.

(** Index alignment of [doc_matrix].  With pairwise distinct labels and
    one vector per row of [data], [doc_matrix] has one row per interesting
    article and the width of [doc_models], and its row [j] is the vector
    that [doc_models] holds for the [j]-th interesting article, at the
    position that article has in [data].  When the numbers of rows of
    [data] and [doc_models] differ there is no [doc_matrix]. *)
Theorem doc_matrix_aligned (data : Frame) (doc_models : Matrix) :
  NoDup (map fst data) ->
  interesting_articles data <> [] ->
  (List.length data = nrows doc_models ->
   exists m,
     doc_matrix data doc_models = Some m
     /\ nrows m = List.length (interesting_articles data)
     /\ ncols m = ncols doc_models
     /\ forall j p r k,
          nth_error (interesting_articles data) j = Some r ->
          nth_error data p = Some r ->
          entry m j k = entry doc_models p k)
  /\ (List.length data <> nrows doc_models ->
      doc_matrix data doc_models = None).
Proof.
  intros Hnd Hne. split.
  - intro Hlen. apply doc_matrix_rows; assumption.
  - intro Hlen. unfold doc_matrix, joined_articles, doc_models_df.
    apply Nat.eqb_neq in Hlen. rewrite Hlen. reflexivity.
Qed.

Lemma map_combine_snd {A B C : Type} (g : B -> C) (l : list A) (l' : list B) :
  map (fun x : A * B => let (a, b) := x in (a, g b)) (combine l l')
  = combine l (map g l').
Proof.
  revert l'. induction l as [|a l IH]; intros [|b l']; simpl; try reflexivity.
  rewrite IH. reflexivity.
Qed.

(** Under pairwise distinct ids the dict comprehensions of
    [similarities_dict] overwrite nothing: entry [i] pairs the [i]-th id
    with the [nlargest] of row [i]. *)
Lemma similarities_dict_unfold (sims : Matrix) (idx : list Z) (df : DataFrame) :
  DataFrame_of sims idx idx = Some df ->
  NoDup idx ->
  df = {| index := idx; columns := idx; values := sims |}
  /\ List.length idx = nrows sims
  /\ List.length idx = ncols sims
  /\ similarities_dict df
     = combine idx (map (fun i => nlargest 100 (row_series df i))
                      (seq 0 (nrows sims))).
Proof.
  intros Hdf Hnd. unfold DataFrame_of in Hdf.
  destruct ((List.length idx =? nrows sims)%nat
            && (List.length idx =? ncols sims)%nat) eqn:Hshape; [|discriminate].
  injection Hdf as <-.
  apply andb_true_iff in Hshape. destruct Hshape as [Hr Hc].
  apply Nat.eqb_eq in Hr. apply Nat.eqb_eq in Hc.
  split; [reflexivity|]. split; [exact Hr|]. split; [exact Hc|].
  set (df := {| index := idx; columns := idx; values := sims |}).
  assert (Hcols : List.length (columns df) = ncols (values df)) by exact Hc.
  assert (Hrows : map (fun s : Series => dict_of_items (items (nlargest 100 s)))
                    (map (row_series df) (seq 0 (nrows sims)))
                  = map (fun i => nlargest 100 (row_series df i))
                      (seq 0 (nrows sims))).
  { rewrite map_map. apply map_ext. intro i.
    apply dict_of_items_nodup, nlargest_keys_nodup.
    rewrite row_series_keys by exact Hcols. exact Hnd. }
  unfold similarities_dict, iterrows.
  change (index df) with idx. change (nrows (values df)) with (nrows sims).
  rewrite (map_combine_snd
             (fun s : Series => dict_of_items (items (nlargest 100 s)))),
    Hrows.
  apply dict_of_items_nodup. rewrite combine_keys; [exact Hnd|].
  rewrite length_map, length_seq. exact Hr.
Qed.

Lemma row_series_entry (sims : Matrix) (idx : list Z) (i : nat) (to : Z) (v : Q) :
  In (to, v)
    (row_series {| index := idx; columns := idx; values := sims |} i) ->
  exists j, nth_error idx j = Some to /\ (j < ncols sims)%nat
            /\ v = entry sims i j.
Proof.
  unfold row_series. cbn [columns values]. intro H.
  apply in_combine_nth in H. destruct H as [j [Hj Hv]].
  apply nth_error_map_seq in Hv. destruct Hv as [Hlt ->].
  exists j. repeat split; assumption.
Qed.

(** The keys of the similarity map.  Over pairwise distinct document ids
    [similarities_dict] has exactly one entry per document, in the order of
    the index, and each neighbour list names documents of the index only,
    none of them twice. *)
Theorem similarities_dict_ids (sims : Matrix) (idx : list Z) (df : DataFrame) :
  DataFrame_of sims idx idx = Some df ->
  NoDup idx ->
  map fst (similarities_dict df) = idx
  /\ forall from_idx nbrs,
       In (from_idx, nbrs) (similarities_dict df) ->
       In from_idx idx
       /\ NoDup (map fst nbrs)
       /\ incl (map fst nbrs) idx.
Proof.
  intros Hdf Hnd.
  destruct (similarities_dict_unfold sims idx df Hdf Hnd)
    as (-> & Hr & Hc & Hdict).
  rewrite Hdict. split.
  - apply combine_keys. rewrite length_map, length_seq. exact Hr.
  - intros from_idx nbrs Hin.
    apply in_combine_nth in Hin. destruct Hin as [i [Hi Hn]].
    apply nth_error_map_seq in Hn. destruct Hn as [_ ->].
    split; [eapply nth_error_In; exact Hi|]. split.
    + apply nlargest_keys_nodup. rewrite row_series_keys by exact Hc. exact Hnd.
    + intros k Hk. apply in_map_iff in Hk. destruct Hk as [[to v] [<- Hk]].
      apply (proj1 (proj2 (proj2 (nlargest_spec 100 _)))) in Hk.
      apply row_series_entry in Hk. destruct Hk as [j [Hj _]].
      eapply nth_error_In. exact Hj.
Qed.

Variable float32 : Q -> Q.

(** What a stored score is.  With pairwise distinct labels, one vector per
    row of [data] and at least one interesting article, the similarity map
    exists, has one entry per interesting article in their order, and
    every score it stores under [from_idx] for [to_idx] is the rounded dot
    product of the vectors [doc_models] holds for these two articles, both
    of them interesting articles. *)
Theorem similarity_map_scores (data : Frame) (doc_models : Matrix) :
  NoDup (map fst data) ->
  List.length data = nrows doc_models ->
  interesting_articles data <> [] ->
  exists out,
    similarity_map float32 data doc_models = Some out
    /\ map fst out = map fst (interesting_articles data)
    /\ forall from_idx nbrs to_idx v,
         In (from_idx, nbrs) out ->
         In (to_idx, v) nbrs ->
         exists p q row_from row_to,
           nth_error data p = Some (from_idx, row_from)
           /\ nth_error data q = Some (to_idx, row_to)
           /\ In (from_idx, row_from) (interesting_articles data)
           /\ In (to_idx, row_to) (interesting_articles data)
           /\ v = float32
                    (sumQ (fun k => entry doc_models p k * entry doc_models q k)
                       (ncols doc_models)).
Proof.
  intros Hnd Hlen Hne.
  destruct (doc_matrix_rows data doc_models Hnd Hlen Hne)
    as [m (Hm & Hrows & Hcols & Halign)].
  pose proof (interesting_keys_nodup data Hnd) as Hids.
  set (ids := map fst (interesting_articles data)) in *.
  assert (Hidlen : List.length ids = nrows m).
  { unfold ids. rewrite length_map. symmetry. exact Hrows. }
  set (sims := toarray (astype float32
                 {| nrows := nrows m;
                    ncols := ncols (transpose m);
                    entry := fun i j =>
                               sumQ (fun k => entry m i k * entry (transpose m) k j)
                                 (ncols m) |})).
  assert (Hsims : cosine_sims float32 m = Some sims).
  { unfold cosine_sims, dot. cbn [nrows transpose]. rewrite Nat.eqb_refl.
    reflexivity. }
  assert (Hdf : DataFrame_of sims ids ids
                = Some {| index := ids; columns := ids; values := sims |}).
  { unfold DataFrame_of. cbn [nrows ncols sims toarray astype transpose].
    rewrite Hidlen, Nat.eqb_refl. reflexivity. }
  destruct (similarities_dict_unfold sims ids _ Hdf Hids)
    as (_ & Hr & Hc & Hdict).
  destruct (joined_articles_index data doc_models Hnd Hlen)
    as [joined [Hjoined Hindex]].
  unfold similarity_map, sims_df. rewrite Hjoined, Hm, Hsims, Hindex.
  fold ids. rewrite Hdf.
  eexists. split; [reflexivity|]. rewrite Hdict. split.
  - apply combine_keys. rewrite length_map, length_seq. exact Hr.
  - intros from_idx nbrs to_idx v Hin Hv.
    apply in_combine_nth in Hin. destruct Hin as [i [Hi Hn]].
    apply nth_error_map_seq in Hn. destruct Hn as [_ ->].
    apply (proj1 (proj2 (proj2 (nlargest_spec 100 _)))) in Hv.
    apply row_series_entry in Hv. destruct Hv as [j [Hj [_ ->]]].
    unfold ids in Hi, Hj. rewrite nth_error_map in Hi, Hj.
    destruct (nth_error (interesting_articles data) i) as [[fi ri]|] eqn:Ei;
      [|discriminate].
    destruct (nth_error (interesting_articles data) j) as [[fj rj]|] eqn:Ej;
      [|discriminate].
    cbn in Hi, Hj. injection Hi as ->. injection Hj as ->.
    pose proof (nth_error_In _ _ Ei) as Hini.
    pose proof (nth_error_In _ _ Ej) as Hinj.
    destruct (In_nth_error _ _ (interesting_in_data data _ Hini)) as [p Hp].
    destruct (In_nth_error _ _ (interesting_in_data data _ Hinj)) as [q Hq].
    exists p, q, ri, rj.
    split; [exact Hp|]. split; [exact Hq|].
    split; [exact Hini|]. split; [exact Hinj|].
    cbn [sims toarray astype entry transpose]. f_equal.
    rewrite Hcols. apply sumQ_ext. intros k _.
    rewrite (Halign i p _ k Ei Hp), (Halign j q _ k Ej Hq). reflexivity.
Qed.

End PipelineFacts.

Section LabelFacts.

Import Similarity Compactor Corpus Notebook.

Lemma filter_filter {A : Type} (f g : A -> bool) (l : list A) :
  filter g (filter f l) = filter (fun x => f x && g x) l.
Proof.
  induction l as [|x l IH]; simpl; [reflexivity|].
  destruct (f x); simpl; [destruct (g x)|]; rewrite IH; reflexivity.
Qed.

Lemma combine_keys_incl {A B : Type} (ks : list A) (vs : list B) (k : A) :
  In k (map fst (combine ks vs)) -> In k ks.
Proof.
  intro H. apply in_map_iff in H. destruct H as [[k' v] [<- H]].
  apply in_combine_l in H. exact H.
Qed.

Lemma filter_keys_incl {A : Type} (f : Z * A -> bool) (l : list (Z * A)) (k : Z) :
  In k (map fst (filter f l)) -> In k (map fst l).
Proof.
  intro H. apply in_map_iff in H. destruct H as [x [<- H]].
  apply filter_In in H. apply in_map. exact (proj1 H).
Qed.

Context {R : Type}.

Lemma join_inner_cons (r : Z * Article) (left : Frame) (right : list (Z * R)) :
  join_inner (r :: left) right
  = map (fun m => (r, snd m)) (filter (fun m => (fst m =? fst r)%Z) right)
    ++ join_inner left right.
Proof. reflexivity. Qed.

Lemma join_inner_skip (left : Frame) (kv : Z * R) (right : list (Z * R)) :
  ~ In (fst kv) (map fst left) ->
  join_inner left (kv :: right) = join_inner left right.
Proof.
  induction left as [|r left IH]; intro H; [reflexivity|].
  rewrite !join_inner_cons. simpl in H.
  rewrite IH by (intro Hin; apply H; right; exact Hin).
  f_equal. cbn [filter].
  destruct (Z.eqb_spec (fst kv) (fst r)) as [E | _]; [|reflexivity].
  exfalso. apply H. left. symmetry. exact E.
Qed.

(** An inner join of a frame with values indexed by the labels of some of
    its rows pairs each of these rows, in the frame's order, with the
    value at its own rank. *)
Lemma join_inner_filter (f : Z * Article -> bool) (data : Frame) :
  NoDup (map fst data) ->
  forall vs : list R,
    List.length vs = List.length (filter f data) ->
    join_inner data (combine (map fst (filter f data)) vs)
    = combine (filter f data) vs.
Proof.
  induction data as [|r data IH]; intros Hnd vs Hlen; [reflexivity|].
  simpl in Hnd. inversion Hnd as [|? ? Hnotin Hnd']; subst.
  rewrite join_inner_cons. cbn [filter] in *.
  destruct (f r) eqn:Hf.
  - destruct vs as [|c vs]; [discriminate|].
    simpl in Hlen. injection Hlen as Hlen.
    cbn [map combine fst filter]. rewrite Z.eqb_refl.
    rewrite matches_none.
    + rewrite join_inner_skip by exact Hnotin.
      rewrite (IH Hnd' vs Hlen). reflexivity.
    + intro Hin. apply Hnotin.
      apply combine_keys_incl, filter_keys_incl in Hin. exact Hin.
  - rewrite matches_none.
    + apply (IH Hnd' vs Hlen).
    + intro Hin. apply Hnotin.
      apply combine_keys_incl, filter_keys_incl in Hin. exact Hin.
Qed.

End LabelFacts.

Section LabelledArticles.

Import Similarity Corpus Notebook.

(** Index alignment of the cluster labels.  With pairwise distinct labels
    in [data], one vector per row of [data] and one cluster label per
    interesting article, the labelled frame holds exactly the interesting
    articles, in their order, the [j]-th of them with the [j]-th cluster
    label; articles that are not interesting are left out.  With any other
    number of cluster labels there is no labelled frame. *)
Theorem labelled_articles_aligned (data : Frame) (doc_models : Matrix)
  (labels : list Z) :
  NoDup (map fst data) ->
  List.length data = nrows doc_models ->
  (List.length labels = List.length (interesting_articles data) ->
   labelled_articles data doc_models labels
   = Some (combine (interesting_articles data) labels))
  /\ (List.length labels <> List.length (interesting_articles data) ->
      labelled_articles data doc_models labels = None).
Proof.
  intros Hnd Hrows.
  destruct (joined_articles_index data doc_models Hnd Hrows)
    as [joined [Hjoined Hindex]].
  unfold labelled_articles, labels_series.
  rewrite Hjoined, Hindex, length_map.
  split; intro Hlen.
  - apply Nat.eqb_eq in Hlen. rewrite Hlen. apply Nat.eqb_eq in Hlen. f_equal.
    unfold interesting_articles, dropna_subset in *.
    rewrite filter_filter in *.
    apply join_inner_filter; assumption.
  - apply Nat.eqb_neq in Hlen. rewrite Hlen. reflexivity.
Qed.

End LabelledArticles.

Section DisjointFacts.

Import Similarity.

Local Open Scope Q_scope.

Lemma sumQ_zero_inv (f : nat -> Q) (n : nat) :
  (forall k, (k < n)%nat -> 0 <= f k) ->
  sumQ f n == 0 ->
  forall k, (k < n)%nat -> f k == 0.
Proof.
  induction n as [|n IH]; intros Hpos Hsum k Hk; [lia|].
  simpl in Hsum.
  assert (H1 : 0 <= sumQ f n) by (apply sumQ_nonneg; intros; apply Hpos; lia).
  assert (H2 : 0 <= f n) by (apply Hpos; lia).
  assert (Hn : f n == 0) by lra.
  assert (Hs : sumQ f n == 0) by lra.
  destruct (Nat.eq_dec k n) as [-> | Hne]; [exact Hn|].
  apply IH; [intros; apply Hpos; lia | exact Hs | lia].
Qed.

Variable float32 : Q -> Q.

(** Two documents that share no term have similarity 0: when in every
    column one of the two vectors is 0, the entry of [cosine_sims] for the
    pair is 0; a document with the zero vector has similarity 0 with every
    document.  Conversely, for non-negative vectors and a rounding that
    sends nothing but 0 to 0, a similarity of 0 means that the two
    documents share no term. *)
Theorem cosine_sims_disjoint_zero (doc_matrix sims : Matrix) (i j : nat) :
  exact_on_0_1_monotone float32 ->
  cosine_sims float32 doc_matrix = Some sims ->
  ((forall k, (k < ncols doc_matrix)%nat ->
              entry doc_matrix i k == 0 \/ entry doc_matrix j k == 0) ->
   entry sims i j == 0)
  /\ (row_is_zero doc_matrix i -> entry sims i j == 0)
  /\ ((forall x, float32 x == 0 -> x == 0) ->
      nonnegative doc_matrix ->
      (i < nrows doc_matrix)%nat -> (j < nrows doc_matrix)%nat ->
      entry sims i j == 0 ->
      forall k, (k < ncols doc_matrix)%nat ->
                entry doc_matrix i k == 0 \/ entry doc_matrix j k == 0).
Proof.
  intros (Hproper & _ & H0 & _) Hsims.
  unfold cosine_sims, dot in Hsims. cbn [nrows transpose] in Hsims.
  rewrite Nat.eqb_refl in Hsims. injection Hsims as <-.
  cbn [toarray astype entry transpose].
  assert (Hdisj : (forall k, (k < ncols doc_matrix)%nat ->
                     entry doc_matrix i k == 0 \/ entry doc_matrix j k == 0) ->
                  float32 (sumQ (fun k => entry doc_matrix i k * entry doc_matrix j k)
                             (ncols doc_matrix)) == 0).
  { intro H. rewrite <- H0. apply Hproper. apply sumQ_zero.
    intros k Hk. destruct (H k Hk) as [E | E]; rewrite E; lra. }
  split; [exact Hdisj|]. split.
  - intro Hz. apply Hdisj. intros k Hk. left. apply Hz. exact Hk.
  - intros Hinj Hpos Hi Hj Hsum k Hk.
    apply Hinj in Hsum.
    assert (Hterm : entry doc_matrix i k * entry doc_matrix j k == 0).
    { apply (sumQ_zero_inv
               (fun k => entry doc_matrix i k * entry doc_matrix j k)
               (ncols doc_matrix)); [|exact Hsum | exact Hk].
      intros k' Hk'. apply Qmult_le_0_compat; apply Hpos; assumption. }
    apply Qmult_integral in Hterm. exact Hterm.
Qed.

End DisjointFacts.

(** * Properties of the cluster sample *)

Section ClusterFacts.

Import Clusters.

Local Open Scope Q_scope.

Lemma goes_before_true (a b : Paper) :
  goes_before a b = true -> ranked_before a b.
Proof.
  unfold goes_before, ranked_before. intro H.
  apply orb_true_iff in H. destruct H as [H | H].
  - left. apply Z.ltb_lt. exact H.
  - apply andb_true_iff in H. destruct H as [H1 H2]. right.
    split; [apply Z.eqb_eq; exact H1 | apply Qle_bool_iff; exact H2].
Qed.

Lemma goes_before_false (a b : Paper) :
  goes_before a b = false -> ranked_before b a.
Proof.
  unfold goes_before, ranked_before. intro H.
  apply orb_false_iff in H. destruct H as [H1 H2].
  apply Z.ltb_ge in H1.
  destruct (Z.eq_dec (label a) (label b)) as [E | Hne]; [|left; lia].
  right. split; [symmetry; exact E|].
  apply Z.eqb_eq in E. rewrite E in H2. simpl in H2.
  destruct (Qlt_le_dec (pagerank a) (pagerank b)) as [Hlt | Hle].
  - apply Qlt_le_weak. exact Hlt.
  - apply Qle_bool_iff in Hle. congruence.
Qed.

Lemma ranked_before_trans (a b c : Paper) :
  ranked_before a b -> ranked_before b c -> ranked_before a c.
Proof.
  unfold ranked_before.
  intros [H1 | [E1 Q1]] [H2 | [E2 Q2]]; try (left; lia).
  right. split; [congruence | eapply Qle_trans; eassumption].
Qed.

Lemma insert_paper_perm (x : Paper) (l : list Paper) :
  Permutation (insert_paper x l) (x :: l).
Proof.
  induction l as [|y l IH]; simpl; [apply Permutation_refl|].
  destruct (goes_before x y); [apply Permutation_refl|].
  eapply Permutation_trans; [apply perm_skip; exact IH | apply perm_swap].
Qed.

Lemma sort_values_perm (data : list Paper) :
  Permutation (sort_values data) data.
Proof.
  induction data as [|x data IH]; simpl; [apply perm_nil|].
  eapply Permutation_trans; [apply insert_paper_perm | apply perm_skip; exact IH].
Qed.

Lemma insert_paper_sorted (x : Paper) (l : list Paper) :
  StronglySorted ranked_before l ->
  StronglySorted ranked_before (insert_paper x l).
Proof.
  induction l as [|y l IH]; intro Hs; simpl.
  - constructor; constructor.
  - destruct (goes_before x y) eqn:E.
    + apply goes_before_true in E. constructor; [exact Hs|].
      constructor; [exact E|].
      apply StronglySorted_inv in Hs. destruct Hs as [_ Hall].
      eapply Forall_impl; [|exact Hall].
      intros z Hz. eapply ranked_before_trans; eassumption.
    + apply goes_before_false in E.
      apply StronglySorted_inv in Hs. destruct Hs as [Hs Hall].
      constructor; [apply IH; exact Hs|].
      apply Forall_forall. intros z Hz.
      apply (Permutation_in _ (insert_paper_perm x l)) in Hz.
      destruct Hz as [<- | Hz]; [exact E|].
      rewrite Forall_forall in Hall. apply Hall. exact Hz.
Qed.

Lemma sort_values_sorted (data : list Paper) :
  StronglySorted ranked_before (sort_values data).
Proof.
  induction data as [|x data IH]; simpl; [constructor|].
  apply insert_paper_sorted. exact IH.
Qed.

Lemma count_label_app (c : Z) (l l' : list Paper) :
  count_label c (l ++ l') = (count_label c l + count_label c l')%nat.
Proof.
  unfold count_label. rewrite filter_app, length_app. reflexivity.
Qed.

Lemma count_label_perm (c : Z) (l l' : list Paper) :
  Permutation l l' -> count_label c l = count_label c l'.
Proof.
  unfold count_label. intro H.
  induction H as [| x l l' _ IH | x y l | l l' l'' _ IH1 _ IH2]; simpl.
  - reflexivity.
  - destruct (label x =? c)%Z; simpl; rewrite IH; reflexivity.
  - destruct (label x =? c)%Z, (label y =? c)%Z; reflexivity.
  - rewrite IH1. exact IH2.
Qed.

Lemma count_label_one (c : Z) (r : Paper) :
  count_label c [r] = if (label r =? c)%Z then 1%nat else 0%nat.
Proof.
  unfold count_label. simpl. destruct (label r =? c)%Z; reflexivity.
Qed.

Lemma head_from_count (n : nat) (c : Z) (rows : list Paper) :
  forall passed,
    count_label c (head_from n passed rows)
    = (Nat.min n (count_label c passed + count_label c rows)
       - Nat.min n (count_label c passed))%nat.
Proof.
  induction rows as [|r rows IH]; intro passed.
  - simpl. unfold count_label at 1 3. simpl. lia.
  - cbn [head_from]. rewrite count_label_app, (IH (passed ++ [r])).
    rewrite count_label_app.
    change (r :: rows) with ([r] ++ rows).
    rewrite (count_label_app c [r] rows).
    destruct (Nat.ltb_spec (count_label (label r) passed) n) as [Hlt | Hge];
      rewrite ?count_label_one;
      change (count_label c []) with 0%nat;
      (destruct (Z.eqb_spec (label r) c) as [E | E];
       [rewrite E in *|]; lia).
Qed.

Lemma head_from_incl (n : nat) (rows : list Paper) :
  forall passed, incl (head_from n passed rows) rows.
Proof.
  induction rows as [|r rows IH]; intros passed x Hx; [destruct Hx|].
  cbn [head_from] in Hx. apply in_app_or in Hx. destruct Hx as [Hx | Hx].
  - destruct (count_label (label r) passed <? n)%nat; [|destruct Hx].
    destruct Hx as [<- | []]. left. reflexivity.
  - right. eapply IH. exact Hx.
Qed.

Lemma head_from_sorted (n : nat) (rows : list Paper) :
  StronglySorted ranked_before rows ->
  forall passed, StronglySorted ranked_before (head_from n passed rows).
Proof.
  induction rows as [|r rows IH]; intros Hs passed; [constructor|].
  apply StronglySorted_inv in Hs. destruct Hs as [Hs Hall].
  cbn [head_from].
  destruct (count_label (label r) passed <? n)%nat; cbn [app];
    [|apply IH; exact Hs].
  constructor; [apply IH; exact Hs|].
  apply Forall_forall. intros x Hx.
  rewrite Forall_forall in Hall. apply Hall.
  eapply head_from_incl. exact Hx.
Qed.

(** A row is kept only while its label has room. *)
Lemma head_from_room (n : nat) (rows : list Paper) :
  forall passed x,
    In x (head_from n passed rows) ->
    (count_label (label x) passed < n)%nat.
Proof.
  induction rows as [|r rows IH]; intros passed x Hx; [destruct Hx|].
  cbn [head_from] in Hx. apply in_app_or in Hx. destruct Hx as [Hx | Hx].
  - destruct (Nat.ltb_spec (count_label (label r) passed) n) as [Hlt | _];
      [|destruct Hx].
    destruct Hx as [<- | []]. exact Hlt.
  - apply IH in Hx. rewrite count_label_app in Hx. lia.
Qed.

Lemma head_from_top (n : nat) (rows : list Paper) :
  StronglySorted ranked_before rows ->
  forall passed r r',
    In r rows ->
    ~ In r (head_from n passed rows) ->
    In r' (head_from n passed rows) ->
    label r' = label r ->
    pagerank r <= pagerank r'.
Proof.
  induction rows as [|x rows IH]; intros Hs passed r r' Hr Hout Hin Hlab;
    [destruct Hr|].
  apply StronglySorted_inv in Hs. destruct Hs as [Hs Hall].
  cbn [head_from] in Hout, Hin.
  apply in_app_or in Hin.
  destruct Hin as [Hin | Hin].
  - destruct (Nat.ltb_spec (count_label (label x) passed) n) as [Hlt | _];
      [|destruct Hin].
    destruct Hin as [<- | []].
    destruct Hr as [<- | Hr].
    + exfalso. apply Hout. left. reflexivity.
    + rewrite Forall_forall in Hall.
      destruct (Hall r Hr) as [Hlt' | [_ Hq]]; [lia | exact Hq].
  - destruct Hr as [<- | Hr].
    + exfalso.
      pose proof (head_from_room n rows _ r' Hin) as Hroom.
      rewrite count_label_app, count_label_one, Hlab, Z.eqb_refl in Hroom.
      destruct (Nat.ltb_spec (count_label (label x) passed) n) as [Hlt | Hge].
      * apply Hout. left. reflexivity.
      * lia.
    + apply (IH Hs (passed ++ [x]) r r' Hr); [|exact Hin | exact Hlab].
      intro H. apply Hout. apply in_or_app. right. exact H.
Qed.

(** The cluster sample holds, for every cluster label, [min 50 n] of the
    [n] rows that carry it; these are rows of the frame, listed by label
    and then pagerank in descending order, and a row that is left out has
    a pagerank no larger than any row kept for its label. *)
Theorem cluster_sample_top50 (data : list Paper) :
  (forall c, count_label c (cluster_sample data)
             = Nat.min 50 (count_label c data))
  /\ incl (cluster_sample data) data
  /\ StronglySorted ranked_before (cluster_sample data)
  /\ (forall r r',
         In r data -> ~ In r (cluster_sample data) ->
         In r' (cluster_sample data) -> label r' = label r ->
         pagerank r <= pagerank r')
  /\ List.length (cluster_analysis data) = List.length (cluster_sample data).
Proof.
  unfold cluster_analysis, cluster_sample, groupby_head.
  split; [|split; [|split; [|split]]].
  - intro c. rewrite head_from_count.
    rewrite (count_label_perm c _ _ (sort_values_perm data)).
    unfold count_label at 1 3. simpl. lia.
  - intros x Hx. apply (Permutation_in _ (sort_values_perm data)).
    eapply head_from_incl. exact Hx.
  - apply head_from_sorted, sort_values_sorted.
  - intros r r' Hr Hout Hin Hlab.
    apply (head_from_top 50 (sort_values data) (sort_values_sorted data)
             [] r r'); try assumption.
    apply (Permutation_in _ (Permutation_sym (sort_values_perm data))). exact Hr.
  - apply length_map.
Qed.

End ClusterFacts.

(** * The further properties on the recorded inputs *)

Section FurtherRuns.

Import PyStr Normalizer Similarity Compactor Corpus Notebook Examples Fixtures.

Local Open Scope string_scope.

(** [strip_padded] on a line of the stopword file. *)
Lemma strip_padded_run :
  strip (" " ++ "gene" ++ newline) = "gene".
Proof.
  exact (proj1 (strip_padded " " "gene" newline eq_refl eq_refl eq_refl eq_refl)).
Defined.

(** [all_preprocess_any_listing] on another listing of the merged set. *)
Lemma all_preprocess_any_listing_run :
  all_preprocess recorded_sent_tokenize recorded_word_tokenize (fun w => w)
    ["the"; "then"; "the"] stopword_doc
  = all_preprocess recorded_sent_tokenize recorded_word_tokenize (fun w => w)
      (all_stopwords english_words stopword_lines) stopword_doc
  /\ all_stopwords english_words stopword_lines = ["then"; "the"].
Proof.
  split; [|reflexivity].
  apply (all_preprocess_any_listing recorded_sent_tokenize
           recorded_word_tokenize (fun w => w)
           english_words stopword_lines ["the"; "then"; "the"]).
  intro w. change (all_stopwords english_words stopword_lines)
    with ["then"; "the"].
  simpl. tauto.
Defined.

(** [tokenize_without_capitals] on the text without capitals. *)
Lemma tokenize_without_capitals_run :
  tokenize_and_lowercase plain_sent_tokenize plain_word_tokenize plain_doc
  = ["the"; "virus"; "spreads"; "fast"].
Proof.
  rewrite (tokenize_without_capitals plain_sent_tokenize plain_word_tokenize).
  - reflexivity.
  - intros s w Hs Hw.
    destruct Hs as [<- | []].
    repeat (destruct Hw as [<- | Hw]; [reflexivity|]).
    destruct Hw.
Defined.

Lemma three_articles_nodup : NoDup (map fst three_articles).
Proof.
  simpl. repeat constructor; simpl; intros H;
    repeat (destruct H as [H | H]; [discriminate|]); exact H.
Defined.

Lemma three_articles_interesting :
  interesting_articles three_articles
  = [ (5%Z, article "first" true); (9%Z, article "third" true) ].
Proof. reflexivity. Defined.

(** [doc_matrix_aligned] on the three articles: row 1 of [doc_matrix] is
    the vector of the third article. *)
Lemma doc_matrix_aligned_run :
  exists m,
    doc_matrix three_articles three_vectors = Some m
    /\ nrows m = 2
    /\ entry m 1 1 = 1%Q.
Proof.
  destruct (proj1 (doc_matrix_aligned three_articles three_vectors
                     three_articles_nodup
                     ltac:(rewrite three_articles_interesting; discriminate))
              eq_refl)
    as [m (Hm & Hrows & _ & Halign)].
  exists m. split; [exact Hm|]. split; [exact Hrows|].
  exact (Halign 1 2 (9%Z, article "third" true) 1 eq_refl eq_refl).
Defined.

(** [similarities_dict_ids] on the two-document matrix. *)
Lemma similarities_dict_ids_run :
  map fst (similarities_dict
             {| index := two_ids; columns := two_ids; values := two_sims |})
  = two_ids.
Proof.
  exact (proj1 (similarities_dict_ids two_sims two_ids
                  {| index := two_ids; columns := two_ids; values := two_sims |}
                  eq_refl two_ids_nodup)).
Defined.

(** [similarity_map_scores] on the three articles. *)
Lemma similarity_map_scores_run :
  exists out,
    similarity_map no_rounding three_articles three_vectors = Some out
    /\ map fst out = [5%Z; 9%Z].
Proof.
  destruct (similarity_map_scores no_rounding three_articles three_vectors
              three_articles_nodup eq_refl
              ltac:(rewrite three_articles_interesting; discriminate))
    as [out (Hout & Hkeys & _)].
  exists out. split; [exact Hout | exact Hkeys].
Defined.

(** [labelled_articles_aligned] on the three articles and two labels. *)
Lemma labelled_articles_aligned_run :
  labelled_articles three_articles three_vectors two_labels
  = Some [ ((5%Z, article "first" true), 2%Z);
           ((9%Z, article "third" true), 0%Z) ].
Proof.
  exact (proj1 (labelled_articles_aligned three_articles three_vectors
                  two_labels three_articles_nodup eq_refl) eq_refl).
Defined.

(** [cosine_sims_disjoint_zero] on the first and third vectors. *)
Lemma cosine_sims_disjoint_zero_run :
  exists sims,
    cosine_sims no_rounding three_vectors = Some sims
    /\ (entry sims 0 2 == 0)%Q.
Proof.
  eexists. split; [reflexivity|].
  apply (proj1 (cosine_sims_disjoint_zero no_rounding three_vectors _ 0 2
                  no_rounding_ok eq_refl)).
  intros k Hk. destruct k as [|[|k]].
  - right. reflexivity.
  - left. reflexivity.
  - simpl in Hk. lia.
Defined.

Local Notation capital_tokenize :=
  (tokenize_and_lowercase capital_sent_tokenize capital_word_tokenize).
Local Notation capital_position :=
  (out_index capital_sent_tokenize capital_word_tokenize).



End FurtherRuns.
